(** * rymcheck: catalog reconciliation, verified against rymcheck.go

    A shallow embedding of the fetcher ([GetAllAlbums]), the normalizer
    ([normalize]), the scorer ([similarity]), the reconciliation loop of
    [renderForm] and the row loop of [parseRymCSV], followed by the
    properties the specification states about them. *)

From Stdlib Require Import ZArith List Bool Lia Ascii.
From Stdlib Require String.
Import String.StringSyntax.
From Stdlib Require Import Floats Uint63.
Import ListNotations.

Local Open Scope Z_scope.

(** ** Go values

    A Go [rune] is a code point.  A Go [string] is represented by the
    sequence of code points that [[]rune(s)] and [for _, r := range s]
    yield (a byte that is not valid UTF-8 yields U+FFFD); comparing with
    the empty string is then emptiness of that sequence.  An [int] is a
    [Z]: every integer below is a length or a sum of two lengths and stays
    far from the 64-bit bounds, or a year, which [strconv.Atoi] keeps
    within them.  A [float64] is a primitive float, IEEE 754
    binary64 with rounding to nearest even, as in Go. *)

Definition rune := Z.
Definition gostring := list rune.

Definition len {A : Type} (xs : list A) : Z := Z.of_nat (length xs).

Definition isEmpty (s : gostring) : bool :=
  match s with [] => true | _ :: _ => false end.

(** The representation of a string given by its bytes: [[]rune(s)], that
    is package [unicode/utf8]'s [DecodeRune] applied until the bytes are
    used up.  An ill-formed byte counts as one rune, U+FFFD. *)
Module utf8.

Definition RuneError : rune := 0xFFFD.

(** Whether [b] lies in [lo, hi]. *)
Definition within (lo hi b : Z) : bool := (lo <=? b) && (b <=? hi).

(** Continuation byte: [locb <= b <= hicb]. *)
Definition cont (b : Z) : bool := within 0x80 0xBF b.

(** The accept range of the second byte, by the first ([acceptRanges]). *)
Definition accept (s0 s1 : Z) : bool :=
  if s0 =? 0xE0 then within 0xA0 0xBF s1
  else if s0 =? 0xED then within 0x80 0x9F s1
  else if s0 =? 0xF0 then within 0x90 0xBF s1
  else if s0 =? 0xF4 then within 0x80 0x8F s1
  else cont s1.

Fixpoint runes (s : list Z) : gostring :=
  match s with
  | [] => []
  | s0 :: t0 =>
      if s0 <? 0x80 then s0 :: runes t0
      else if within 0xC2 0xDF s0 then
        match t0 with
        | s1 :: t1 =>
            if accept s0 s1
            then Z.lor (Z.shiftl (Z.land s0 0x1F) 6) (Z.land s1 0x3F) :: runes t1
            else RuneError :: runes t0
        | [] => RuneError :: runes t0
        end
      else if within 0xE0 0xEF s0 then
        match t0 with
        | s1 :: s2 :: t2 =>
            if accept s0 s1 && cont s2
            then Z.lor (Z.shiftl (Z.land s0 0x0F) 12)
                   (Z.lor (Z.shiftl (Z.land s1 0x3F) 6) (Z.land s2 0x3F))
                 :: runes t2
            else RuneError :: runes t0
        | _ => RuneError :: runes t0
        end
      else if within 0xF0 0xF4 s0 then
        match t0 with
        | s1 :: s2 :: s3 :: t3 =>
            if accept s0 s1 && cont s2 && cont s3
            then Z.lor (Z.shiftl (Z.land s0 0x07) 18)
                   (Z.lor (Z.shiftl (Z.land s1 0x3F) 12)
                      (Z.lor (Z.shiftl (Z.land s2 0x3F) 6) (Z.land s3 0x3F)))
                 :: runes t3
            else RuneError :: runes t0
        | _ => RuneError :: runes t0
        end
      else RuneError :: runes t0
  end.

End utf8.

(** Code points of an ASCII literal, for writing examples. *)
Definition str (s : String.string) : gostring :=
  map (fun c => Z.of_N (N_of_ascii c)) (String.list_ascii_of_string s).
Arguments str s%_string_scope.

(** [float64(n)] for a non-negative [int]: the conversion rounds to nearest,
    ties to even, as [of_uint63] does. *)
Definition float64 (n : Z) : float := PrimFloat.of_uint63 (Uint63.of_Z n).

(** ** The edit distance of github.com/texttheater/golang-levenshtein

    [similarity] calls [levenshtein.DistanceForStrings] with
    [levenshtein.DefaultOptions].  The package is a dependency of the
    repository; the embedding follows its [Options], [DefaultOptions] and the
    two-row dynamic program of [DistanceForStrings]. *)
Module levenshtein.

Record Options := {
  InsCost : Z;
  DelCost : Z;
  SubCost : Z;
  Matches : rune -> rune -> bool
}.

(** [DefaultOptions]: insertion 1, deletion 1, substitution 2 (an insertion
    and a deletion), two runes match iff they are the same. *)
Definition DefaultOptions : Options :=
  {| InsCost := 1; DelCost := 1; SubCost := 2; Matches := Z.eqb |}.

(** [DefaultOptionsWithSub]: as above with substitution cost 1. *)
Definition DefaultOptionsWithSub : Options :=
  {| InsCost := 1; DelCost := 1; SubCost := 1; Matches := Z.eqb |}.

(** [matrix[0][j] = j * op.InsCost] for [0 <= j < width]. *)
Fixpoint firstRow (op : Options) (j : Z) (target : list rune) : list Z :=
  match target with
  | [] => []
  | _ :: target' => (j * InsCost op) :: firstRow op (j + 1) target'
  end.

(** The inner loop [for j := 1; j < width; j++]: [prevs] is [prev[j..]],
    [prevDiag] is [prev[j-1]] and [curLeft] is [cur[j-1]]. *)
Fixpoint fillRow (op : Options) (s : rune) (target : list rune)
    (prevs : list Z) (prevDiag curLeft : Z) : list Z :=
  match target, prevs with
  | t :: target', prevJ :: prevs' =>
      let delCost := prevJ + DelCost op in
      let matchSubCost :=
        if Matches op s t then prevDiag else prevDiag + SubCost op in
      let insCost := curLeft + InsCost op in
      let curJ := Z.min delCost (Z.min matchSubCost insCost) in
      curJ :: fillRow op s target' prevs' prevJ curJ
  | _, _ => []
  end.

(** One iteration of the outer loop: [cur[0] = i * op.DelCost], then the
    inner loop. *)
Definition nextRow (op : Options) (i : Z) (s : rune) (target : list rune)
    (prev : list Z) : list Z :=
  match prev with
  | [] => []
  | prev0 :: prevs =>
      let cur0 := i * DelCost op in
      cur0 :: fillRow op s target prevs prev0 cur0
  end.

(** The outer loop [for i := 1; i < height; i++] over the runes of
    [source]. *)
Fixpoint rows (op : Options) (i : Z) (source target : list rune)
    (prev : list Z) : list Z :=
  match source with
  | [] => prev
  | s :: source' => rows op (i + 1) source' target (nextRow op i s target prev)
  end.

(** [return matrix[(height-1)%2][width-1]]. *)
Definition DistanceForStrings (source target : list rune) (op : Options) : Z :=
  last (rows op 1 source target (0 :: firstRow op 1 target)) 0.

End levenshtein.

(** ** [similarity] *)

Definition similarity (a b : gostring) : float :=
  if isEmpty a || isEmpty b then 0%float
  else
    let d := levenshtein.DistanceForStrings a b levenshtein.DefaultOptions in
    let maxLen := len a in
    let maxLen := if len b >? maxLen then len b else maxLen in
    if maxLen =? 0 then 1%float
    else (1 - float64 d / float64 maxLen)%float.


(** ** Package [unicode], [strings] and [norm]

    [unicode.IsSpace] is small enough to be written out.  The tables behind
    [unicode.ToLower] above ASCII, [unicode.Mn], [unicode.IsLetter],
    [unicode.IsNumber] and the normal form of [norm.NFD] belong to the Go
    distribution and to golang.org/x/text: they are the fields of
    [UnicodeTables]. *)

Class UnicodeTables := {
  (** [unicode.To(unicode.LowerCase, r)], used for [r > unicode.MaxASCII] *)
  lowerCase : rune -> rune;
  (** [unicode.Is(unicode.Mn, r)] *)
  Mn : rune -> bool;
  (** [unicode.IsLetter(r)] *)
  IsLetter : rune -> bool;
  (** [unicode.IsNumber(r)] *)
  IsNumber : rune -> bool;
  (** [norm.NFD.String(s)] *)
  NFD : gostring -> gostring
}.

Definition MaxASCII : rune := 0x7F.
Definition MaxLatin1 : rune := 0xFF.

(** [unicode.IsSpace]: the Latin-1 switch, then the [White_Space] table. *)
Definition IsSpace (r : rune) : bool :=
  if (0 <=? r) && (r <=? MaxLatin1) then
    (r =? 0x09) || (r =? 0x0A) || (r =? 0x0B) || (r =? 0x0C) || (r =? 0x0D)
    || (r =? 0x20) || (r =? 0x85) || (r =? 0xA0)
  else
    (r =? 0x1680) || ((0x2000 <=? r) && (r <=? 0x200A))
    || (r =? 0x2028) || (r =? 0x2029) || (r =? 0x202F) || (r =? 0x205F)
    || (r =? 0x3000).

(** [strings.FieldsFunc(s, unicode.IsSpace)], which [strings.Fields] is:
    [field] is the field being read, if any ([start >= 0]). *)
Fixpoint fieldsFrom (s : gostring) (field : option gostring) : list gostring :=
  match s with
  | [] => match field with Some w => [w] | None => [] end
  | r :: s' =>
      if IsSpace r then
        match field with
        | Some w => w :: fieldsFrom s' None
        | None => fieldsFrom s' None
        end
      else
        fieldsFrom s' (Some (match field with Some w => w ++ [r] | None => [r] end))
  end.

Definition Fields (s : gostring) : list gostring := fieldsFrom s None.

(** [strings.Join(elems, sep)] *)
Fixpoint Join (elems : list gostring) (sep : gostring) : gostring :=
  match elems with
  | [] => []
  | [e] => e
  | e :: elems' => e ++ sep ++ Join elems' sep
  end.

(** [strings.TrimSpace] *)
Fixpoint trimLeft (s : gostring) : gostring :=
  match s with
  | r :: s' => if IsSpace r then trimLeft s' else s
  | [] => []
  end.

Definition TrimSpace (s : gostring) : gostring :=
  rev (trimLeft (rev (trimLeft s))).

Section Unicode.
Context {U : UnicodeTables}.

(** [unicode.ToLower] *)
Definition toLower (r : rune) : rune :=
  if r <=? MaxASCII then
    if (0x41 <=? r) && (r <=? 0x5A) then r + (0x61 - 0x41) else r
  else lowerCase r.

(** [strings.ToLower] *)
Definition ToLower (s : gostring) : gostring := map toLower s.

(** ** [normalize] *)

(** The body of [for _, r := range t] in [normalize]; [b] is the builder. *)
Definition normalizeStep (b : gostring) (r : rune) : gostring :=
  if Mn r then b
  else if IsLetter r || IsNumber r || IsSpace r then b ++ [r]
  else b.

Definition normalize (s : gostring) : gostring :=
  let t := NFD (ToLower s) in
  let b := fold_left normalizeStep t [] in
  Join (Fields b) (str " ").

End Unicode.

(** The tables on Latin-1: exact for text whose code points are below
    U+0100.  Its letters with a canonical decomposition decompose into an
    ASCII letter and one mark of the block U+0300..U+036F, all of which is
    [Mn]; nothing is reordered, since no two marks meet. *)
Module latin1.

Definition lower (r : rune) : rune :=
  if (0xC0 <=? r) && (r <=? 0xDE) && negb (r =? 0xD7) then r + 0x20 else r.

Definition letter (r : rune) : bool :=
  ((0x41 <=? r) && (r <=? 0x5A)) || ((0x61 <=? r) && (r <=? 0x7A))
  || (r =? 0xAA) || (r =? 0xB5) || (r =? 0xBA)
  || ((0xC0 <=? r) && (r <=? 0xD6)) || ((0xD8 <=? r) && (r <=? 0xF6))
  || ((0xF8 <=? r) && (r <=? 0xFF)).

Definition number (r : rune) : bool :=
  ((0x30 <=? r) && (r <=? 0x39))
  || (r =? 0xB2) || (r =? 0xB3) || (r =? 0xB9)
  || ((0xBC <=? r) && (r <=? 0xBE)).

Definition mark (r : rune) : bool := (0x300 <=? r) && (r <=? 0x36F).

(** Code point, base letter, combining mark. *)
Definition decompositions : list (rune * (rune * rune)) :=
  [(0xC0, (0x41, 0x300)); (0xC1, (0x41, 0x301)); (0xC2, (0x41, 0x302));
   (0xC3, (0x41, 0x303)); (0xC4, (0x41, 0x308)); (0xC5, (0x41, 0x30A));
   (0xC7, (0x43, 0x327));
   (0xC8, (0x45, 0x300)); (0xC9, (0x45, 0x301)); (0xCA, (0x45, 0x302));
   (0xCB, (0x45, 0x308));
   (0xCC, (0x49, 0x300)); (0xCD, (0x49, 0x301)); (0xCE, (0x49, 0x302));
   (0xCF, (0x49, 0x308));
   (0xD1, (0x4E, 0x303));
   (0xD2, (0x4F, 0x300)); (0xD3, (0x4F, 0x301)); (0xD4, (0x4F, 0x302));
   (0xD5, (0x4F, 0x303)); (0xD6, (0x4F, 0x308));
   (0xD9, (0x55, 0x300)); (0xDA, (0x55, 0x301)); (0xDB, (0x55, 0x302));
   (0xDC, (0x55, 0x308));
   (0xDD, (0x59, 0x301));
   (0xE0, (0x61, 0x300)); (0xE1, (0x61, 0x301)); (0xE2, (0x61, 0x302));
   (0xE3, (0x61, 0x303)); (0xE4, (0x61, 0x308)); (0xE5, (0x61, 0x30A));
   (0xE7, (0x63, 0x327));
   (0xE8, (0x65, 0x300)); (0xE9, (0x65, 0x301)); (0xEA, (0x65, 0x302));
   (0xEB, (0x65, 0x308));
   (0xEC, (0x69, 0x300)); (0xED, (0x69, 0x301)); (0xEE, (0x69, 0x302));
   (0xEF, (0x69, 0x308));
   (0xF1, (0x6E, 0x303));
   (0xF2, (0x6F, 0x300)); (0xF3, (0x6F, 0x301)); (0xF4, (0x6F, 0x302));
   (0xF5, (0x6F, 0x303)); (0xF6, (0x6F, 0x308));
   (0xF9, (0x75, 0x300)); (0xFA, (0x75, 0x301)); (0xFB, (0x75, 0x302));
   (0xFC, (0x75, 0x308));
   (0xFD, (0x79, 0x301)); (0xFF, (0x79, 0x308))].

Fixpoint lookup (r : rune) (table : list (rune * (rune * rune)))
    : option (rune * rune) :=
  match table with
  | [] => None
  | (c, d) :: table' => if r =? c then Some d else lookup r table'
  end.

Definition decompose (r : rune) : list rune :=
  match lookup r decompositions with
  | Some (base, m) => [base; m]
  | None => [r]
  end.

Definition tables : UnicodeTables := {|
  lowerCase := lower;
  Mn := mark;
  IsLetter := letter;
  IsNumber := number;
  NFD := flat_map decompose
|}.

(** What the laws need of an entry: the code point is a Latin-1 letter,
    upper case exactly when its base is, and the mark is a mark. *)
Definition entryOk (entry : rune * (rune * rune)) : bool :=
  let '(c, (base, m)) := entry in
  mark m
  && ((((0xC0 <=? c) && (c <=? 0xDE) && negb (c =? 0xD7))
       && ((0x41 <=? base) && (base <=? 0x5A)))
      || (((0xDF <=? c) && (c <=? 0xFF))
          && ((0x61 <=? base) && (base <=? 0x7A)))).

End latin1.

(** ** Albums *)

Record Album := {
  RYMAlbumID : gostring;
  ID : gostring;
  Name : gostring;
  AlbumArtist : gostring;
  ProductionYear : Z;
  Overview : gostring;
  PrimaryImageTag : gostring
}.

(** ** The reconciliation loop of [renderForm] *)

Section Reconcile.
Context {U : UnicodeTables}.

(** [jfTitle], [rymTitle]: [normalize(strings.ToLower(a.Name))] *)
Definition normTitle (a : Album) : gostring := normalize (ToLower (Name a)).

(** [jfArtist], [rymArtist]: [normalize(strings.ToLower(a.AlbumArtist))] *)
Definition normArtist (a : Album) : gostring :=
  normalize (ToLower (AlbumArtist a)).

(** The inner loop [for _, rymAlbum := range albums]: the value of
    [duplicate] when the loop is left. *)
Fixpoint isDuplicate (jfTitle jfArtist : gostring) (albums : list Album) : bool :=
  match albums with
  | [] => false
  | rymAlbum :: albums' =>
      let rymTitle := normalize (ToLower (Name rymAlbum)) in
      let rymArtist := normalize (ToLower (AlbumArtist rymAlbum)) in
      let titleSim := similarity jfTitle rymTitle in
      let artistSim := similarity jfArtist rymArtist in
      if (0.75 <? titleSim)%float && (0.75 <? artistSim)%float
      then true (* duplicate = true; break *)
      else isDuplicate jfTitle jfArtist albums'
  end.

(** The same loop, returning the reference records it has compared with
    when it is left. *)
Fixpoint scanned (jfTitle jfArtist : gostring) (albums : list Album) : list Album :=
  match albums with
  | [] => []
  | rymAlbum :: albums' =>
      let rymTitle := normalize (ToLower (Name rymAlbum)) in
      let rymArtist := normalize (ToLower (AlbumArtist rymAlbum)) in
      let titleSim := similarity jfTitle rymTitle in
      let artistSim := similarity jfArtist rymArtist in
      if (0.75 <? titleSim)%float && (0.75 <? artistSim)%float
      then [rymAlbum]
      else rymAlbum :: scanned jfTitle jfArtist albums'
  end.

(** The body of the outer loop [for _, jfAlbum := range albumList]. *)
Definition reconcileStep (albums : list Album) (filtered : list Album)
    (jfAlbum : Album) : list Album :=
  let jfTitle := normalize (ToLower (Name jfAlbum)) in
  let jfArtist := normalize (ToLower (AlbumArtist jfAlbum)) in
  let duplicate := isDuplicate jfTitle jfArtist albums in
  if negb duplicate then filtered ++ [jfAlbum] else filtered.

(** Lines 176-197: [filtered] after the outer loop, for a local catalog
    [albumList] and a reference catalog [albums]. *)
Definition reconcile (albumList albums : list Album) : list Album :=
  fold_left (reconcileStep albums) albumList [].

(** An accepted match, in the specification's words: both similarities
    strictly above 0.75. *)
Definition acceptedMatch (loc ref : Album) : bool :=
  (0.75 <? similarity (normTitle loc) (normTitle ref))%float
  && (0.75 <? similarity (normArtist loc) (normArtist ref))%float.

End Reconcile.

(** ** Errors and panics

    A Go [error] is kept by what made it; a run-time panic is a third
    outcome of a call, next to returning a value and returning an error. *)

Inductive error :=
  | errLibrary (msg : gostring)        (* the error of a library call, passed on *)
  | errParseBaseURL (cause : error)    (* fmt.Errorf("parse base url: %w", err) *)
  | errBadStatus (code : Z)            (* fmt.Errorf("bad status %d", code) *)
  | errEmptyCSV                        (* fmt.Errorf("empty CSV") *)
  | errHeader (columns expected : Z).  (* "header has %d columns, expected at least %d" *)

Inductive panic :=
  | indexOutOfRange (index length : Z). (* index out of range [index] with length *)

Inductive result (A : Type) :=
  | Ok (a : A)
  | Error (e : error)
  | Panic (p : panic).
Arguments Ok {A} a.
Arguments Error {A} e.
Arguments Panic {A} p.

(** Evaluation that may panic. *)
Definition bindP {A B : Type} (x : panic + A) (f : A -> panic + B) : panic + B :=
  match x with
  | inl p => inl p
  | inr a => f a
  end.

Notation "x <- e ;; k" := (bindP e (fun x => k))
  (at level 61, e at next level, right associativity).

(** [xs[i]] *)
Definition index {A : Type} (xs : list A) (i : nat) : panic + A :=
  match nth_error xs i with
  | Some x => inr x
  | None => inl (indexOutOfRange (Z.of_nat i) (len xs))
  end.

(** ** [GetAllAlbums] *)

Record itemsResponse := {
  Items : list Album;
  TotalRecordCount : Z
}.

Record Client := {
  BaseURL : gostring;
  Token : gostring;
  UserAgent : gostring
}.

(** The request of one iteration: the query parameters and the token
    header.  [StartIndex] and [Limit] are kept as the integers that
    [fmt.Sprintf("%d", _)] prints. *)
Record Request := {
  reqBase : gostring;
  reqPath : gostring;
  IncludeItemTypes : gostring;
  Recursive : gostring;
  SortBy : gostring;
  SortOrder : gostring;
  StartIndex : Z;
  Limit : Z;
  Fields_ : gostring;
  XMediaBrowserToken : gostring
}.

(** A response: its status and what [json.NewDecoder(resp.Body).Decode]
    makes of its body. *)
Record Response := {
  StatusCode : Z;
  Body : error + itemsResponse
}.

(** What lies outside the function: [url.Parse] and
    [http.NewRequestWithContext] may refuse; [Do n req] is the outcome of
    [c.HTTP.Do] for the request [req] issued after [n] earlier ones. *)
Record World := {
  urlParse : gostring -> option error;
  newRequest : Request -> option error;
  Do : nat -> Request -> error + Response
}.

Definition StatusOK : Z := 200.
Definition pageSize : Z := 200.

Definition buildRequest (c : Client) (startIndex : Z) : Request := {|
  reqBase := BaseURL c;
  reqPath := str "/Items";
  IncludeItemTypes := str "MusicAlbum";
  Recursive := str "true";
  SortBy := str "SortName";
  SortOrder := str "Ascending";
  StartIndex := startIndex;
  Limit := pageSize;
  Fields_ := str "PrimaryImageTag,AlbumArtist,AlbumArtists,ProductionYear,Overview";
  XMediaBrowserToken := Token c
|}.

(** How one iteration of [for { ... }] ends. *)
Inductive iteration :=
  | Return (items : list Album) (err : option error)
  | Break (startIndex : Z) (all : list Album)
  | Continue (startIndex : Z) (all : list Album).

(** The loop body; the first component is the request sent, if any. *)
Definition loopBody (w : World) (c : Client) (n : nat)
    (startIndex : Z) (all : list Album) : list Request * iteration :=
  let req := buildRequest c startIndex in
  match newRequest w req with
  | Some err => ([], Return [] (Some err))
  | None =>
      match Do w n req with
      | inl err => ([req], Return [] (Some err))
      | inr resp =>
          if negb (StatusCode resp =? StatusOK) then
            ([req], Return [] (Some (errBadStatus (StatusCode resp))))
          else
            match Body resp with
            | inl err => ([req], Return [] (Some err))
            | inr ir =>
                let all := all ++ Items ir in
                let startIndex := startIndex + len (Items ir) in
                if (startIndex >=? TotalRecordCount ir) || (len (Items ir) =? 0)
                then ([req], Break startIndex all)
                else ([req], Continue startIndex all)
            end
      end
  end.

(** The outcome of a fetch: the requests sent, in order, and the two values
    returned. *)
Record Fetch := {
  requests : list Request;
  albums : list Album;
  failure : option error
}.

(** The loop, for at most [fuel] iterations; [None] when they do not
    suffice. *)
Fixpoint fetchLoop (fuel : nat) (w : World) (c : Client) (n : nat)
    (startIndex : Z) (all : list Album) : option Fetch :=
  match fuel with
  | O => None
  | S fuel' =>
      let '(sent, it) := loopBody w c n startIndex all in
      match it with
      | Return items err =>
          Some {| requests := sent; albums := items; failure := err |}
      | Break _ all' =>
          Some {| requests := sent; albums := all'; failure := None |}
      | Continue startIndex' all' =>
          match fetchLoop fuel' w c (n + length sent) startIndex' all' with
          | Some f =>
              Some {| requests := sent ++ requests f;
                      albums := albums f; failure := failure f |}
          | None => None
          end
      end
  end.

Definition GetAllAlbums (fuel : nat) (w : World) (c : Client) : option Fetch :=
  match urlParse w (BaseURL c) with
  | Some err =>
      Some {| requests := []; albums := []; failure := Some (errParseBaseURL err) |}
  | None => fetchLoop fuel w c 0 0 []
  end.

(** ** [parseRymCSV] *)

Definition byte := Z.

Definition stripBOM (b : list byte) : list byte :=
  match b with
  | b0 :: b1 :: b2 :: b' =>
      if (b0 =? 0xEF) && (b1 =? 0xBB) && (b2 =? 0xBF) then b' else b
  | _ => b
  end.

Definition trimAll (xs : list gostring) : list gostring := map TrimSpace xs.

(** ** [strconv.Atoi]

    [Atoi] is [ParseInt(s, 10, 0)] with [int] of 64 bits; its fast path for
    strings shorter than 19 bytes returns the same ([atoiFast] below and
    [atoiFast_Atoi]).  The functions go byte by byte.  Going rune by rune
    gives the same: a digit or a sign is one byte, and the first byte of
    any other rune is no digit. *)

Inductive numError := ErrSyntax | ErrRange.

Definition maxUint64 : Z := 2 ^ 64 - 1.
Definition MaxInt : Z := 2 ^ 63 - 1.
Definition MinInt : Z := - 2 ^ 63.

Definition isDigit (c : rune) : bool := (0x30 <=? c) && (c <=? 0x39).

(** The loop of [ParseUint(s, 10, 64)] over the bytes of [s]: a byte that
    is no digit ends it with a syntax error, a digit that takes the number
    beyond [maxUint64] ends it with a range error, at once. *)
Fixpoint parseDigits (s : gostring) (n : Z) : Z * option numError :=
  match s with
  | [] => (n, None)
  | c :: s' =>
      if isDigit c then
        let d := c - 0x30 in
        if n >=? maxUint64 / 10 + 1 then (maxUint64, Some ErrRange)
        else
          let n1 := n * 10 + d in
          if n1 >? maxUint64 then (maxUint64, Some ErrRange)
          else parseDigits s' n1
      else (0, Some ErrSyntax)
  end.

Definition ParseUint (s : gostring) : Z * option numError :=
  match s with
  | [] => (0, Some ErrSyntax)
  | _ :: _ => parseDigits s 0
  end.

Definition ParseInt (s : gostring) : Z * option numError :=
  match s with
  | [] => (0, Some ErrSyntax)
  | c :: s' =>
      let neg := c =? 0x2D in
      let s := if (c =? 0x2B) || (c =? 0x2D) then s' else s in
      match ParseUint s with
      | (_, Some ErrSyntax) => (0, Some ErrSyntax)
      | (un, _) =>
          let cutoff := 2 ^ 63 in
          if negb neg && (un >=? cutoff) then (cutoff - 1, Some ErrRange)
          else if neg && (un >? cutoff) then (- cutoff, Some ErrRange)
          else (if neg then - un else un, None)
      end
  end.

(** [strconv.Atoi]: the value returned, and whether [err == nil]. *)
Definition Atoi (s : gostring) : Z * bool :=
  let '(i64, err) := ParseInt s in
  (i64, match err with None => true | Some _ => false end).

(** The fast path of [Atoi], taken for [0 < len(s) < 19]. *)
Fixpoint fastDigits (s : gostring) (n : Z) : option Z :=
  match s with
  | [] => Some n
  | ch :: s' => if isDigit ch then fastDigits s' (n * 10 + (ch - 0x30)) else None
  end.

Definition atoiFast (s : gostring) : Z * bool :=
  match s with
  | [] => (0, false)
  | c :: s' =>
      let digits := if (c =? 0x2D) || (c =? 0x2B) then s' else s in
      match digits with
      | [] => (0, false)
      | _ :: _ =>
          match fastDigits digits 0 with
          | None => (0, false)
          | Some n => (if c =? 0x2D then - n else n, true)
          end
      end
  end.

(** The body of [for i := 1; i < len(rows); i++]. *)
Definition parseRow (cols : list gostring) : panic + Album :=
  let cols := trimAll cols in
  c6 <- index cols 6 ;;
  let '(i, _) := Atoi c6 in
  c0 <- index cols 0 ;;
  c5 <- index cols 5 ;;
  c1 <- index cols 1 ;;
  c2 <- index cols 2 ;;
  let alb := {| RYMAlbumID := c0; ID := []; Name := c5;
                AlbumArtist := TrimSpace (c1 ++ str " " ++ c2);
                ProductionYear := i; Overview := []; PrimaryImageTag := [] |} in
  first <- index cols 1 ;;
  last <- index cols 2 ;;
  inr {| RYMAlbumID := RYMAlbumID alb; ID := ID alb; Name := Name alb;
         AlbumArtist := TrimSpace (Join [first; last] (str " "));
         ProductionYear := ProductionYear alb; Overview := Overview alb;
         PrimaryImageTag := PrimaryImageTag alb |}.

Fixpoint parseDataRows (rows : list (list gostring)) (out : list Album)
    : panic + list Album :=
  match rows with
  | [] => inr out
  | cols :: rows' =>
      alb <- parseRow cols ;;
      parseDataRows rows' (out ++ [alb])
  end.

(** [parseRymCSV] from [rows, err := cr.ReadAll()] on. *)
Definition parseRows (rows : list (list gostring)) : result (list Album) :=
  match rows with
  | [] => Error errEmptyCSV
  | row0 :: dataRows =>
      let hdr := trimAll row0 in
      if len hdr <? 12 then Error (errHeader (len hdr) 12)
      else
        match parseDataRows dataRows [] with
        | inl p => Panic p
        | inr out => Ok out
        end
  end.

(** [parseRymCSV]: [input] is what [io.ReadAll(r)] returns and [ReadAll]
    is [encoding/csv]'s reader with [FieldsPerRecord = -1]. *)
Definition parseRymCSV (ReadAll : list byte -> error + list (list gostring))
    (input : error + list byte) : result (list Album) :=
  match input with
  | inl err => Error err
  | inr data =>
      let data := stripBOM data in
      match ReadAll data with
      | inl err => Error err
      | inr rows => parseRows rows
      end
  end.

(** ** The edit distance as a recurrence

    [editDistance op a b] is the cost of the cheapest edit script from [a]
    to [b], by the usual recurrence on the last elements; [a] and [b] are
    given last element first ([weightedDistance] reverses them). *)
Fixpoint editDistance (op : levenshtein.Options) (a b : list rune) {struct a} : Z :=
  let fix toEmpty (b : list rune) : Z :=
    match b with
    | [] => 0
    | _ :: b' => toEmpty b' + levenshtein.InsCost op
    end in
  match a with
  | [] => toEmpty b
  | x :: a' =>
      (fix inner (b : list rune) : Z :=
         match b with
         | [] => editDistance op a' [] + levenshtein.DelCost op
         | y :: b' =>
             Z.min (editDistance op a' b + levenshtein.DelCost op)
               (Z.min
                  (editDistance op a' b' +
                   (if levenshtein.Matches op x y then 0 else levenshtein.SubCost op))
                  (inner b' + levenshtein.InsCost op))
         end) b
  end.

Definition weightedDistance (op : levenshtein.Options) (a b : list rune) : Z :=
  editDistance op (rev a) (rev b).

(** The row of the matrix for the source prefix [a] (last rune first): its
    entries from the target prefix [bp] (last rune first) on. *)
Fixpoint rowFrom (op : levenshtein.Options) (a bp target : list rune) : list Z :=
  editDistance op a bp ::
  match target with
  | [] => []
  | t :: target' => rowFrom op a (t :: bp) target'
  end.

(** ** What [normalize] needs of the tables

    Three facts of the Unicode character database, stated for the tables:
    general categories are disjoint, so no white space is a nonspacing
    mark; a letter or number left by decomposing lower-cased text has no
    lower-case mapping of its own; and text made of spaces and of such
    letters and numbers (starters that are already decomposed) is in NFD. *)

Section Laws.
Context {U : UnicodeTables}.

(** The runes [normalize] writes to its builder. *)
Definition kept (r : rune) : bool :=
  negb (Mn r) && (IsLetter r || IsNumber r || IsSpace r).

(** A letter or number, not a mark, that occurs in decomposed text. *)
Definition decomposedAlnum (r : rune) : Prop :=
  Mn r = false /\ IsLetter r || IsNumber r = true /\ exists s, In r (NFD s).

Record UnicodeLaws : Prop := {
  space_not_Mn : forall r, IsSpace r = true -> Mn r = false;
  lower_NFD_lower : forall s r,
    In r (NFD (ToLower s)) -> Mn r = false ->
    IsLetter r || IsNumber r = true -> toLower r = r;
  NFD_stable : forall t,
    (forall r, In r t -> r = 0x20 \/ decomposedAlnum r) -> NFD t = t
}.

End Laws.
Arguments UnicodeLaws U : clear implicits.

(** A field of [strings.Fields]: not empty and free of white space. *)
Definition isField (w : gostring) : Prop :=
  w <> [] /\ forall r, In r w -> IsSpace r = false.

(** ** The fetcher's protocol, in the specification's words *)

(** The loop is left after a page when the items received so far reach the
    total the page reports, or when the page is empty. *)
Definition exits (received : Z) (page : itemsResponse) : bool :=
  (received >=? TotalRecordCount page) || (len (Items page) =? 0).

(** The offsets requested when the pages [pages] are received in turn. *)
Fixpoint startIndices (start : Z) (pages : list itemsResponse) : list Z :=
  match pages with
  | [] => []
  | page :: pages' => start :: startIndices (start + len (Items page)) pages'
  end.

(** The world answers the requests from the [n]-th on, at offset [start],
    with the pages [pages], status 200. *)
Fixpoint served (w : World) (c : Client) (n : nat) (start : Z)
    (pages : list itemsResponse) : Prop :=
  match pages with
  | [] => True
  | page :: pages' =>
      newRequest w (buildRequest c start) = None
      /\ Do w n (buildRequest c start)
         = inr {| StatusCode := StatusOK; Body := inr page |}
      /\ served w c (S n) (start + len (Items page)) pages'
  end.

(** None of the pages [pages], received from offset [start] on, ends the
    loop. *)
Fixpoint noneExits (start : Z) (pages : list itemsResponse) : Prop :=
  match pages with
  | [] => True
  | page :: pages' =>
      exits (start + len (Items page)) page = false
      /\ noneExits (start + len (Items page)) pages'
  end.

Definition received (pages : list itemsResponse) : Z :=
  len (concat (map Items pages)).

(** A failed page request: a transport error, a status other than 200, or
    a body that does not decode. *)
Definition pageFailure (reply : error + Response) : option error :=
  match reply with
  | inl err => Some err
  | inr resp =>
      if StatusCode resp =? StatusOK then
        match Body resp with
        | inl err => Some err
        | inr _ => None
        end
      else Some (errBadStatus (StatusCode resp))
  end.

(** ** Sample data *)

Definition album (name artist : gostring) : Album := {|
  RYMAlbumID := []; ID := []; Name := name; AlbumArtist := artist;
  ProductionYear := 0; Overview := []; PrimaryImageTag := []
|}.

Definition abbeyRoad : Album := album (str "Abbey Road") (str "The Beatles").
Definition letItBleed : Album := album (str "Let It Bleed") (str "The Rolling Stones").
Definition untitled : Album := album (str "***") (str "The Beatles").

(** A source of 250 albums that serves 200, then 50. *)
Definition firstPage : itemsResponse :=
  {| Items := repeat abbeyRoad 200; TotalRecordCount := 250 |}.
Definition secondPage : itemsResponse :=
  {| Items := repeat letItBleed 50; TotalRecordCount := 250 |}.

Definition jellyfin : Client :=
  {| BaseURL := str "http://localhost:8096"; Token := str "token";
     UserAgent := str "Jellyfin-Go/1.0 (+https://example.com)" |}.

(** A page of [n] albums that reports [total]. *)
Definition page (n : nat) (total : Z) : itemsResponse :=
  {| Items := repeat abbeyRoad n; TotalRecordCount := total |}.

(** A source of five albums that serves three, then two. *)
Definition shortPages : World := {|
  urlParse := fun _ => None;
  newRequest := fun _ => None;
  Do := fun _ req =>
    if StartIndex req =? 0 then inr {| StatusCode := StatusOK; Body := inr (page 3 5) |}
    else if StartIndex req =? 3 then
      inr {| StatusCode := StatusOK; Body := inr (page 2 5) |}
    else inl (errLibrary (str "unexpected offset"))
|}.

(** A source that reports a total of 1000 and serves two albums, then
    none. *)
Definition misreporting : World := {|
  urlParse := fun _ => None;
  newRequest := fun _ => None;
  Do := fun n _ =>
    match n with
    | O => inr {| StatusCode := StatusOK; Body := inr (page 2 1000) |}
    | _ => inr {| StatusCode := StatusOK; Body := inr (page 0 1000) |}
    end
|}.

(** The source of [firstPage] and [secondPage]. *)
Definition twoPages : World := {|
  urlParse := fun _ => None;
  newRequest := fun _ => None;
  Do := fun _ req =>
    if StartIndex req =? 0 then inr {| StatusCode := StatusOK; Body := inr firstPage |}
    else inr {| StatusCode := StatusOK; Body := inr secondPage |}
|}.

(** The same source, refusing the second request with status 401. *)
Definition unauthorized : World := {|
  urlParse := fun _ => None;
  newRequest := fun _ => None;
  Do := fun _ req =>
    if StartIndex req =? 0 then inr {| StatusCode := StatusOK; Body := inr firstPage |}
    else inr {| StatusCode := 401; Body := inl (errLibrary (str "EOF")) |}
|}.

(** The header of a twelve-column export, and a data row of three columns. *)
Definition exportHeader : list gostring :=
  [str "RYM Album"; str "First Name"; str "Last Name";
   str "First Name localized"; str "Last Name localized"; str "Title";
   str "Release_Date"; str "Rating"; str "Ownership"; str "Purchase Date";
   str "Media Type"; str "Review"].

Definition shortRow : list gostring := [str "1"; str "The"; str "Beatles"].

Definition fullRow : list gostring :=
  [str "1"; str "The"; str "Beatles"; []; []; str " Abbey Road ";
   str "1969"; str "10"; str "n"; []; []; []].

(** ** [fmt]'s [%d] and the text of an error *)

(** The decimal digits of [n >= 0], most significant first, before [acc];
    [fuel] bounds their number. *)
Fixpoint digitsOf (fuel : nat) (n : Z) (acc : gostring) : gostring :=
  match fuel with
  | O => acc
  | S fuel' =>
      let acc' := (0x30 + n mod 10) :: acc in
      if n <? 10 then acc' else digitsOf fuel' (n / 10) acc'
  end.

(** [strconv.Itoa], which [%d] prints. *)
Definition Itoa (n : Z) : gostring :=
  if n <? 0 then 0x2D :: digitsOf (S (Z.to_nat (Z.log2 (- n)))) (- n) []
  else digitsOf (S (Z.to_nat (Z.log2 n))) n [].

(** [err.Error()] *)
Fixpoint errorText (e : error) : gostring :=
  match e with
  | errLibrary msg => msg
  | errParseBaseURL cause => str "parse base url: " ++ errorText cause
  | errBadStatus code => str "bad status " ++ Itoa code
  | errEmptyCSV => str "empty CSV"
  | errHeader columns expected =>
      str "header has " ++ Itoa columns
      ++ str " columns, expected at least " ++ Itoa expected
  end.

(** ** [renderForm] *)

(** What the template is executed with. [pageJSON] holds the albums that
    [json.MarshalIndent] serialises, none when [len(albums) == 0]. *)
Record Page := {
  pageAlbums : list Album;
  pageJSON : list Album;
  pageErr : gostring
}.

(** What a request is answered with: the page the template made of its
    data, the call [http.Error(w, msg, code)], or a panic, which [net/http]
    recovers.  What a template wrote before it failed is not kept. *)
Inductive HTTPReply :=
  | replyPage (p : Page)
  | replyError (msg : gostring) (code : Z)
  | replyPanic (p : panic).

Definition StatusBadRequest : Z := 400.
Definition StatusMethodNotAllowed : Z := 405.
Definition StatusInternalServerError : Z := 500.

Section Render.
Context {U : UnicodeTables}.

(** [pageTpl.ExecuteTemplate(w, "page", data)]: the error it returns, if
    any.  The template is parsed from index.html, which is not part of the
    sources. *)
Variable ExecuteTemplate : Page -> option error.

(** [renderForm(w, albums, errMsg)] as a transition of the package variable
    [albumList], with what is written to [w]: [albumList = filtered], then
    the template is executed on [albumList], and its error, if any, is
    answered with status 500. *)
Definition renderForm (albums : list Album) (errMsg : gostring)
    (albumList : list Album) : list Album * HTTPReply :=
  let jsonOut := if 0 <? len albums then albums else [] in
  let filtered := reconcile albumList albums in
  let albumList := filtered in
  let data :=
    {| pageAlbums := albumList; pageJSON := jsonOut; pageErr := errMsg |} in
  match ExecuteTemplate data with
  | None => (albumList, replyPage data)
  | Some err =>
      (albumList, replyError (errorText err) StatusInternalServerError)
  end.

(** [albumList] after a sequence of [renderForm] calls, one per reference
    catalog. *)
Definition renderAll (references : list (list Album)) (albumList : list Album)
    : list Album :=
  fold_left (fun l albums => fst (renderForm albums [] l)) references albumList.

End Render.

(** A template that executes on every data, and one that fails on every
    data. *)
Definition executes : Page -> option error := fun _ => None.
Definition templateError : error := errLibrary (str "template: no such template").
Definition fails : Page -> option error := fun _ => Some templateError.

(** ** The handler of [ServeRymCSVForm] *)

Inductive method := GET | POST | otherMethod.

(** What the handler reads of a request: the method, the upload
    [r.FormFile("csvfile")] when there is one, with what [io.Copy] makes of
    it, and the text field [r.FormValue("csvtext")]. *)
Record HTTPRequest := {
  reqMethod : method;
  csvfile : option (error + list byte);
  csvtext : list byte
}.

Section Handler.
Context {U : UnicodeTables}.
Variable ReadAll : list byte -> error + list (list gostring).
Variable ExecuteTemplate : Page -> option error.

(** The function given to [mux.HandleFunc("/", ...)], as a transition of
    [albumList]. *)
Definition handle (r : HTTPRequest) (albumList : list Album)
    : list Album * HTTPReply :=
  match reqMethod r with
  | GET => renderForm ExecuteTemplate [] [] albumList
  | POST =>
      let src :=
        match csvfile r with
        | Some (inl err) => inl err
        | Some (inr buf) => inr buf
        | None => inr (csvtext r)
        end in
      match src with
      | inl err =>
          (albumList,
           replyError (str "failed to read uploaded file: " ++ errorText err)
             StatusBadRequest)
      | inr data =>
          match parseRymCSV ReadAll (inr data) with
          | Error err =>
              renderForm ExecuteTemplate []
                (str "Parse error: " ++ errorText err) albumList
          | Ok albums => renderForm ExecuteTemplate albums [] albumList
          | Panic p => (albumList, replyPanic p)
          end
      end
  | otherMethod =>
      (albumList, replyError (str "method not allowed") StatusMethodNotAllowed)
  end.

(** [albumList] after the requests [rs], served in turn. *)
Definition serve (rs : list HTTPRequest) (albumList : list Album) : list Album :=
  fold_left (fun l r => fst (handle r l)) rs albumList.

(** The reference catalog a request delivers: the parsed rows of a POST
    whose text is read and parsed, nothing otherwise. *)
Definition delivered (r : HTTPRequest) : list Album :=
  match reqMethod r with
  | POST =>
      match csvfile r with
      | Some (inl _) => []
      | Some (inr data) =>
          match parseRymCSV ReadAll (inr data) with Ok albums => albums | _ => [] end
      | None =>
          match parseRymCSV ReadAll (inr (csvtext r)) with
          | Ok albums => albums
          | _ => []
          end
      end
  | _ => []
  end.

End Handler.

(** ** The comparator of [main] *)

(** [s < t] on strings.  Go compares bytes; on well-formed UTF-8, which
    [strings.ToLower] returns, that is the order of the code points. *)
Fixpoint ltString (s t : gostring) : bool :=
  match s, t with
  | _, [] => false
  | [], _ :: _ => true
  | x :: s', y :: t' => (x <? y) || ((x =? y) && ltString s' t')
  end.

(** [s == t] *)
Fixpoint eqString (s t : gostring) : bool :=
  match s, t with
  | [], [] => true
  | x :: s', y :: t' => (x =? y) && eqString s' t'
  | _, _ => false
  end.

Section Main.
Context {U : UnicodeTables}.

(** The function given to [sort.Slice], on the two albums it indexes. *)
Definition less (a b : Album) : bool :=
  let ai := ToLower (AlbumArtist a) in
  let aj := ToLower (AlbumArtist b) in
  if eqString ai aj then ltString (ToLower (Name a)) (ToLower (Name b))
  else ltString ai aj.

End Main.

(** ** The album of a data row, column by column *)

(** Column [i] of a row, trimmed. *)
Definition column (cols : list gostring) (i : nat) : gostring :=
  TrimSpace (nth i cols []).

Definition rowAlbum (cols : list gostring) : Album := {|
  RYMAlbumID := column cols 0;
  ID := [];
  Name := column cols 5;
  AlbumArtist := TrimSpace (Join [column cols 1; column cols 2] (str " "));
  ProductionYear := fst (Atoi (column cols 6));
  Overview := [];
  PrimaryImageTag := []
|}.

(** ** The text of the year column

    What the statements about [strconv.Atoi] are written with. *)

(** The text behind one leading sign, and whether that sign is a minus. *)
Definition unsigned (s : gostring) : gostring :=
  match s with
  | [] => []
  | c :: s' => if (c =? 0x2B) || (c =? 0x2D) then s' else s
  end.

Definition negative (s : gostring) : bool :=
  match s with
  | [] => false
  | c :: _ => c =? 0x2D
  end.

(** The digits a text begins with. *)
Fixpoint digitPrefix (s : gostring) : gostring :=
  match s with
  | [] => []
  | c :: s' => if isDigit c then c :: digitPrefix s' else []
  end.

(** The number that the digits [ds] write behind the number [n]. *)
Definition decimalFrom (n : Z) (ds : gostring) : Z :=
  fold_left (fun n c => n * 10 + (c - 0x30)) ds n.

Definition decimalValue (ds : gostring) : Z := decimalFrom 0 ds.

(** Two white-space runes in a row somewhere in [t]. *)
Fixpoint doubleSpace (t : gostring) : bool :=
  match t with
  | x :: (y :: _) as t' => (IsSpace x && IsSpace y) || doubleSpace t'
  | _ => false
  end.

(** A source that never lets the loop end: one album a page, and a total
    always two beyond the offset asked for. *)
Definition endless : World := {|
  urlParse := fun _ => None;
  newRequest := fun _ => None;
  Do := fun _ req =>
    inr {| StatusCode := StatusOK;
           Body := inr {| Items := [abbeyRoad];
                          TotalRecordCount := StartIndex req + 2 |} |}
|}.

(** [t] does not begin with white space. *)
Definition headNonSpace (t : gostring) : Prop :=
  match t with
  | [] => True
  | x :: _ => IsSpace x = false
  end.

(** * Properties *)

(** ** The dynamic program computes the recurrence *)

Module LevenshteinFacts.
Import levenshtein.

Section Recurrence.
Variable op : Options.

Lemma editDistance_nil_l (b : list rune) :
  editDistance op [] b = len b * InsCost op.
Proof.
  unfold len. induction b as [|y b IH]; [reflexivity|].
  change (editDistance op [] (y :: b)) with (editDistance op [] b + InsCost op).
  rewrite IH. simpl length. lia.
Qed.

Lemma editDistance_nil_r (a : list rune) :
  editDistance op a [] = len a * DelCost op.
Proof.
  unfold len. induction a as [|x a IH]; [reflexivity|].
  change (editDistance op (x :: a) []) with (editDistance op a [] + DelCost op).
  rewrite IH. simpl length. lia.
Qed.

Lemma editDistance_cons (x y : rune) (a b : list rune) :
  editDistance op (x :: a) (y :: b) =
  Z.min (editDistance op a (y :: b) + DelCost op)
    (Z.min (editDistance op a b + (if Matches op x y then 0 else SubCost op))
       (editDistance op (x :: a) b + InsCost op)).
Proof. reflexivity. Qed.

Lemma rowFrom_head (a bp target : list rune) :
  rowFrom op a bp target = editDistance op a bp :: tl (rowFrom op a bp target).
Proof. destruct target; reflexivity. Qed.

Lemma rowFrom_tail (a bp : list rune) (t : rune) (target : list rune) :
  tl (rowFrom op a bp (t :: target)) = rowFrom op a (t :: bp) target.
Proof. reflexivity. Qed.

Lemma firstRow_rowFrom (target bp : list rune) (j : Z) :
  j = len bp + 1 ->
  firstRow op j target = tl (rowFrom op [] bp target).
Proof.
  revert bp j. induction target as [|t target IH]; intros bp j Hj; [reflexivity|].
  rewrite rowFrom_tail, rowFrom_head. cbn [firstRow].
  rewrite <- (IH (t :: bp) (j + 1)).
  - rewrite editDistance_nil_l. f_equal. unfold len in *. simpl length. lia.
  - unfold len in *. simpl length. lia.
Qed.

Lemma fillRow_rowFrom (s : rune) (a target bp : list rune) :
  fillRow op s target (tl (rowFrom op a bp target))
    (editDistance op a bp) (editDistance op (s :: a) bp)
  = tl (rowFrom op (s :: a) bp target).
Proof.
  revert bp. induction target as [|t target IH]; intros bp; [reflexivity|].
  rewrite !rowFrom_tail.
  rewrite (rowFrom_head a (t :: bp) target), (rowFrom_head (s :: a) (t :: bp) target).
  cbn [fillRow].
  assert (E : Z.min (editDistance op a (t :: bp) + DelCost op)
                (Z.min (if Matches op s t then editDistance op a bp
                        else editDistance op a bp + SubCost op)
                   (editDistance op (s :: a) bp + InsCost op))
              = editDistance op (s :: a) (t :: bp)).
  { rewrite editDistance_cons. destruct (Matches op s t); f_equal; f_equal; lia. }
  rewrite E. f_equal. apply IH.
Qed.

Lemma nextRow_rowFrom (i : Z) (s : rune) (a target : list rune) :
  i = len a + 1 ->
  nextRow op i s target (rowFrom op a [] target) = rowFrom op (s :: a) [] target.
Proof.
  intros Hi.
  assert (E0 : i * DelCost op = editDistance op (s :: a) []).
  { rewrite editDistance_nil_r. unfold len in *. simpl length. lia. }
  rewrite (rowFrom_head a [] target), (rowFrom_head (s :: a) [] target).
  unfold nextRow. rewrite E0. f_equal. apply fillRow_rowFrom.
Qed.

Lemma rows_rowFrom (source a target : list rune) (i : Z) :
  i = len a + 1 ->
  rows op i source target (rowFrom op a [] target)
  = rowFrom op (rev source ++ a) [] target.
Proof.
  revert a i. induction source as [|s source IH]; intros a i Hi; [reflexivity|].
  cbn [rows]. rewrite nextRow_rowFrom by exact Hi.
  rewrite (IH (s :: a) (i + 1)).
  - simpl rev. now rewrite <- app_assoc.
  - unfold len in *. simpl length. lia.
Qed.

Lemma last_rowFrom (a target bp : list rune) :
  last (rowFrom op a bp target) 0 = editDistance op a (rev target ++ bp).
Proof.
  revert bp. induction target as [|t target IH]; intros bp; [reflexivity|].
  simpl rev. rewrite <- app_assoc. simpl app. rewrite <- IH.
  rewrite (rowFrom_head a bp (t :: target)), rowFrom_tail.
  rewrite (rowFrom_head a (t :: bp) target). reflexivity.
Qed.

(** [DistanceForStrings] is the weighted edit distance of its options. *)
Lemma DistanceForStrings_weightedDistance (source target : list rune) :
  DistanceForStrings source target op = weightedDistance op source target.
Proof.
  unfold DistanceForStrings, weightedDistance.
  assert (E : 0 :: firstRow op 1 target = rowFrom op [] [] target).
  { rewrite (firstRow_rowFrom target [] 1) by reflexivity.
    now rewrite (rowFrom_head [] [] target). }
  rewrite E, (rows_rowFrom source [] target 1) by reflexivity.
  rewrite last_rowFrom. now rewrite !app_nil_r.
Qed.

End Recurrence.

(** With equal insertion and deletion costs and a symmetric match, the
    distance is symmetric. *)
Lemma editDistance_sym (op : Options) :
  InsCost op = DelCost op ->
  (forall x y, Matches op x y = Matches op y x) ->
  forall a b, editDistance op a b = editDistance op b a.
Proof.
  intros Hc Hm. induction a as [|x a IHa]; intros b.
  - rewrite editDistance_nil_l, editDistance_nil_r. now rewrite Hc.
  - induction b as [|y b IHb].
    + rewrite editDistance_nil_l, editDistance_nil_r. now rewrite Hc.
    + rewrite !editDistance_cons.
      rewrite (IHa (y :: b)), (IHa b), IHb, (Hm y x), Hc. lia.
Qed.

Lemma editDistance_nonneg (op : Options) :
  0 <= InsCost op -> 0 <= DelCost op -> 0 <= SubCost op ->
  forall a b, 0 <= editDistance op a b.
Proof.
  intros Hi Hd Hs. induction a as [|x a IHa]; intros b.
  - rewrite editDistance_nil_l. unfold len. nia.
  - induction b as [|y b IHb].
    + rewrite editDistance_nil_r. unfold len. nia.
    + rewrite editDistance_cons.
      pose proof (IHa (y :: b)). pose proof (IHa b).
      destruct (Matches op x y); lia.
Qed.

Lemma editDistance_diag (op : Options) :
  0 <= InsCost op -> 0 <= DelCost op -> 0 <= SubCost op ->
  (forall x, Matches op x x = true) ->
  forall a, editDistance op a a = 0.
Proof.
  intros Hi Hd Hs Hm. induction a as [|x a IH]; [reflexivity|].
  rewrite editDistance_cons, Hm, IH.
  pose proof (editDistance_nonneg op Hi Hd Hs a (x :: a)).
  pose proof (editDistance_nonneg op Hi Hd Hs (x :: a) a). lia.
Qed.

(** No edit script costs more than deleting [a] and inserting [b]. *)
Lemma editDistance_upper (op : Options) :
  0 <= InsCost op -> 0 <= DelCost op ->
  forall a b, editDistance op a b <= len a * DelCost op + len b * InsCost op.
Proof.
  intros Hi Hd. induction a as [|x a IHa]; intros b.
  - rewrite editDistance_nil_l. unfold len. simpl. lia.
  - induction b as [|y b IHb].
    + rewrite editDistance_nil_r. unfold len. simpl length. lia.
    + rewrite editDistance_cons. pose proof (IHa (y :: b)).
      unfold len in *. simpl length in *. lia.
Qed.

Lemma DefaultOptions_sym (a b : list rune) :
  DistanceForStrings a b DefaultOptions = DistanceForStrings b a DefaultOptions.
Proof.
  rewrite !DistanceForStrings_weightedDistance. unfold weightedDistance.
  apply editDistance_sym; [reflexivity|]. intros x y. apply Z.eqb_sym.
Qed.

Lemma DefaultOptions_diag (a : list rune) :
  DistanceForStrings a a DefaultOptions = 0.
Proof.
  rewrite DistanceForStrings_weightedDistance. unfold weightedDistance.
  apply editDistance_diag; simpl; try lia; intros x; apply Z.eqb_refl.
Qed.

Lemma DefaultOptions_bounds (a b : list rune) :
  0 <= DistanceForStrings a b DefaultOptions <= len a + len b.
Proof.
  rewrite DistanceForStrings_weightedDistance. unfold weightedDistance. split.
  - apply editDistance_nonneg; simpl; lia.
  - pose proof (editDistance_upper DefaultOptions) as H. simpl in H.
    specialize (H ltac:(lia) ltac:(lia) (rev a) (rev b)).
    unfold len in *. rewrite !length_rev in H. lia.
Qed.

End LevenshteinFacts.

(** ** [float64] of a positive [int] is a positive float *)

Module Float64Facts.
Import SpecFloat.

Section Rounding.
Variables prec emax : Z.
Hypothesis prec_pos : 0 < prec.

Lemma digits2_lower (p : positive) :
  2 ^ (Zpos (digits2_pos p) - 1) <= Zpos p.
Proof.
  induction p as [p IH|p IH|]; simpl digits2_pos; [| |simpl; lia].
  - rewrite Pos2Z.inj_succ.
    replace (Z.succ (Zpos (digits2_pos p)) - 1)
      with (Z.succ (Zpos (digits2_pos p) - 1)) by lia.
    rewrite Z.pow_succ_r by lia. lia.
  - rewrite Pos2Z.inj_succ.
    replace (Z.succ (Zpos (digits2_pos p)) - 1)
      with (Z.succ (Zpos (digits2_pos p) - 1)) by lia.
    rewrite Z.pow_succ_r by lia. lia.
Qed.

Lemma shr_1_lower (k : Z) (mrs : shr_record) :
  0 <= k -> 2 ^ (k + 1) <= shr_m mrs -> 2 ^ k <= shr_m (shr_1 mrs).
Proof.
  intros Hk. rewrite Z.pow_add_r by lia. change (2 ^ 1) with 2.
  assert (0 < 2 ^ k) by (apply Z.pow_pos_nonneg; lia).
  destruct mrs as [m r s]. simpl shr_m.
  destruct m as [|[p|p|]|p]; simpl; lia.
Qed.

Lemma iter_shr_1_lower (p : positive) :
  forall (k : Z) (mrs : shr_record),
    0 <= k -> 2 ^ (k + Zpos p) <= shr_m mrs ->
    2 ^ k <= shr_m (iter_pos shr_1 p mrs).
Proof.
  induction p as [p IH|p IH|]; intros k mrs Hk H; simpl iter_pos.
  - apply IH; [lia|]. apply IH; [lia|]. apply shr_1_lower; [lia|].
    replace (k + Zpos p + Zpos p + 1) with (k + Zpos p~1) by lia. exact H.
  - apply IH; [lia|]. apply IH; [lia|].
    replace (k + Zpos p + Zpos p) with (k + Zpos p~0) by lia. exact H.
  - apply shr_1_lower; assumption.
Qed.

Lemma shr_m_of_loc (m : Z) (l : location) : shr_m (shr_record_of_loc m l) = m.
Proof. destruct l as [|[]]; reflexivity. Qed.

Lemma shr_fexp_lower (m e : Z) (l : location) :
  0 < m -> emin prec emax <= e ->
  0 < shr_m (fst (shr_fexp prec emax m e l))
  /\ emin prec emax <= snd (shr_fexp prec emax m e l).
Proof.
  intros Hm He. unfold shr_fexp, shr.
  destruct m as [|p|p]; try lia. simpl Zdigits2.
  pose proof (digits2_lower p) as Hd.
  set (d := Zpos (digits2_pos p)) in *.
  assert (Hd1 : 1 <= d) by (unfold d; lia).
  destruct (fexp prec emax (d + e) - e) as [|n|n] eqn:En; simpl fst; simpl snd;
    rewrite ?shr_m_of_loc; try (split; lia).
  assert (Hn : Zpos n <= d - 1) by (unfold fexp in En; lia).
  split; [|lia].
  apply Z.lt_le_trans with (2 ^ 0); [reflexivity|].
  apply iter_shr_1_lower; [lia|]. rewrite shr_m_of_loc.
  apply Z.le_trans with (2 ^ (d - 1)); [|exact Hd].
  apply Z.pow_le_mono_r; lia.
Qed.

Lemma round_nearest_even_lower (m : Z) (l : location) :
  m <= round_nearest_even m l.
Proof.
  destruct l as [|[]]; simpl; try lia. destruct (Z.even m); lia.
Qed.

Lemma digits2_upper (p : positive) : Zpos p < 2 ^ Zpos (digits2_pos p).
Proof.
  induction p as [p IH|p IH|]; simpl digits2_pos; [| |reflexivity];
    rewrite Pos2Z.inj_succ, Z.pow_succ_r by lia; lia.
Qed.

Lemma digits2_le (p : positive) (k : Z) :
  0 <= k -> Zpos p < 2 ^ k -> Zpos (digits2_pos p) <= k.
Proof.
  intros Hk Hp. pose proof (digits2_lower p) as Hd.
  assert (H : 2 ^ (Zpos (digits2_pos p) - 1) < 2 ^ k) by lia.
  apply Z.pow_lt_mono_r_iff in H; lia.
Qed.

Lemma shr_1_range (mrs : shr_record) :
  0 <= shr_m mrs -> 0 <= shr_m (shr_1 mrs) <= shr_m mrs.
Proof.
  destruct mrs as [m r s]. simpl shr_m.
  destruct m as [|[p|p|]|p]; simpl; lia.
Qed.

Lemma iter_shr_1_range (p : positive) :
  forall mrs : shr_record,
    0 <= shr_m mrs -> 0 <= shr_m (iter_pos shr_1 p mrs) <= shr_m mrs.
Proof.
  induction p as [p IH|p IH|]; intros mrs H; simpl iter_pos.
  - pose proof (shr_1_range mrs H) as H1.
    pose proof (IH _ (proj1 H1)) as H2.
    pose proof (IH _ (proj1 H2)). lia.
  - pose proof (IH _ H) as H1. pose proof (IH _ (proj1 H1)). lia.
  - now apply shr_1_range.
Qed.

Lemma shr_fexp_range (m e : Z) (l : location) :
  0 <= m ->
  0 <= shr_m (fst (shr_fexp prec emax m e l)) <= m
  /\ (snd (shr_fexp prec emax m e l) = e
      \/ snd (shr_fexp prec emax m e l) = fexp prec emax (Zdigits2 m + e)).
Proof.
  intros Hm. unfold shr_fexp, shr.
  destruct (fexp prec emax (Zdigits2 m + e) - e) as [|n|n] eqn:En;
    simpl fst; simpl snd; rewrite ?shr_m_of_loc; try (split; [lia|now left]).
  split; [|right; lia].
  pose proof (iter_shr_1_range n (shr_record_of_loc m l)) as H.
  rewrite shr_m_of_loc in H. now apply H.
Qed.

Lemma round_nearest_even_upper (m : Z) (l : location) :
  round_nearest_even m l <= m + 1.
Proof.
  destruct l as [|[]]; simpl; try lia. destruct (Z.even m); lia.
Qed.

(** Rounding a mantissa that is not negative does not give NaN. *)
Lemma binary_round_aux_not_nan (sx : bool) (m e : Z) (l : location) :
  0 <= m -> binary_round_aux prec emax sx m e l <> S754_nan.
Proof.
  intros Hm. unfold binary_round_aux.
  destruct (shr_fexp_range m e l Hm) as [H1 _].
  destruct (shr_fexp prec emax m e l) as [mrs' e']. simpl fst in H1.
  pose proof (round_nearest_even_lower (shr_m mrs') (loc_of_shr_record mrs')) as Hr.
  set (m1 := round_nearest_even (shr_m mrs') (loc_of_shr_record mrs')) in *.
  destruct (shr_fexp_range m1 e' loc_Exact ltac:(lia)) as [H3 _].
  destruct (shr_fexp prec emax m1 e' loc_Exact) as [mrs'' e'']. simpl fst in H3.
  destruct (shr_m mrs'') as [|q|q]; try lia; [discriminate|].
  destruct (e'' <=? emax - prec); discriminate.
Qed.

Lemma binary_normalize_not_nan (n e : Z) :
  binary_normalize prec emax n e false <> S754_nan.
Proof.
  destruct n as [|p|p]; [discriminate| |];
    unfold binary_normalize, binary_round;
    destruct (shl_align _ _ _) as [mz ez];
    apply binary_round_aux_not_nan; lia.
Qed.

End Rounding.

Lemma iter_xO (p d : positive) : Zpos (Pos.iter xO p d) = Zpos p * 2 ^ Zpos d.
Proof.
  induction d as [|d IH] using Pos.peano_ind.
  - simpl. lia.
  - rewrite Pos.iter_succ, Pos2Z.inj_xO, IH, Pos2Z.inj_succ, Z.pow_succ_r by lia.
    lia.
Qed.

(** In binary64 a positive mantissa below [2^63] with an exponent between
    the least one and 0 rounds to a finite number. *)
Lemma binary_round_aux_finite (sx : bool) (m e : Z) (l : location) :
  0 < m < 2 ^ 63 -> -1074 <= e <= 0 ->
  exists m' e', binary_round_aux prec emax sx m e l = S754_finite sx m' e'.
Proof.
  intros Hm He. unfold binary_round_aux.
  assert (Hemin : emin prec emax = -1074) by reflexivity.
  destruct (shr_fexp_lower prec emax ltac:(reflexivity) m e l) as [H1 H2];
    [lia|lia|].
  destruct (shr_fexp_range prec emax m e l ltac:(lia)) as [H3 H4].
  assert (Hd : Zdigits2 m <= 63).
  { destruct m as [|p|p]; try lia. apply digits2_le; lia. }
  destruct (shr_fexp prec emax m e l) as [mrs' e']. simpl fst in *. simpl snd in *.
  assert (He' : e' <= 10) by (unfold fexp, emin, prec, emax in H4; lia).
  pose proof (round_nearest_even_lower (shr_m mrs') (loc_of_shr_record mrs')) as Hr.
  pose proof (round_nearest_even_upper (shr_m mrs') (loc_of_shr_record mrs')) as Hu.
  set (m1 := round_nearest_even (shr_m mrs') (loc_of_shr_record mrs')) in *.
  destruct (shr_fexp_lower prec emax ltac:(reflexivity) m1 e' loc_Exact) as [H5 H6];
    [lia|lia|].
  destruct (shr_fexp_range prec emax m1 e' loc_Exact ltac:(lia)) as [_ H7].
  assert (Hd1 : Zdigits2 m1 <= 64).
  { destruct m1 as [|p|p]; try lia. apply digits2_le; lia. }
  destruct (shr_fexp prec emax m1 e' loc_Exact) as [mrs'' e''].
  simpl fst in *. simpl snd in *.
  assert (He'' : e'' <= 21) by (unfold fexp, emin, prec, emax in H7; lia).
  destruct (shr_m mrs'') as [|q|q]; try lia.
  destruct (Z.leb_spec e'' (emax - prec)) as [_|Hlt]; [eauto|].
  unfold emax, prec in Hlt. lia.
Qed.

Lemma float64_finite (n : Z) :
  0 < n < 2 ^ 63 ->
  exists m e, Prim2SF (float64 n) = S754_finite false m e.
Proof.
  intros Hn. unfold float64. rewrite FloatAxioms.of_uint63_spec, Uint63.of_Z_spec.
  rewrite Z.mod_small by (change wB with (2 ^ 63); lia).
  destruct n as [|p|p]; try lia.
  unfold binary_normalize, binary_round, shl_align.
  pose proof (digits2_upper p) as Hu.
  assert (Hd : 1 <= Zpos (digits2_pos p)) by lia.
  set (dg := Zpos (digits2_pos p)) in *.
  destruct (fexp prec emax (dg + 0) - 0) as [|d|d] eqn:E;
    try (apply binary_round_aux_finite; lia).
  unfold fexp, emin, prec, emax in *.
  apply binary_round_aux_finite; [|lia]. rewrite iter_xO.
  assert (Ed : Zpos d = 53 - dg) by lia. rewrite Ed.
  split; [lia|].
  apply Z.lt_le_trans with (2 ^ dg * 2 ^ (53 - dg)).
  - apply Z.mul_lt_mono_pos_r; [apply Z.pow_pos_nonneg; lia|exact Hu].
  - rewrite <- Z.pow_add_r by lia. replace (dg + (53 - dg)) with 53 by lia. lia.
Qed.

Lemma float64_zero : Prim2SF (float64 0) = S754_zero false.
Proof. reflexivity. Qed.

Lemma SFdiv_core_nonneg (mx my : positive) (ex ey : Z) :
  0 <= fst (fst (SFdiv_core_binary prec emax (Zpos mx) ex (Zpos my) ey)).
Proof.
  unfold SFdiv_core_binary. cbv zeta.
  set (s := _ - _ - _).
  set (m' := match s with Z0 => Zpos mx | Zpos _ => Z.shiftl (Zpos mx) s | Zneg _ => 0 end).
  assert (Hm' : 0 <= m').
  { unfold m'. destruct s; try lia. apply Z.shiftl_nonneg. lia. }
  pose proof (Z.div_pos m' (Zpos my) Hm' ltac:(lia)) as Hq.
  unfold Z.div in Hq. destruct (Z.div_eucl m' (Zpos my)) as [q r]. exact Hq.
Qed.

(** [float64(d) / float64(n)] is not NaN for [0 <= d] and [0 < n]. *)
Lemma div_float64_not_nan (d n : Z) :
  0 <= d < 2 ^ 63 -> 0 < n < 2 ^ 63 ->
  Prim2SF (float64 d / float64 n) <> S754_nan.
Proof.
  intros Hd Hn. rewrite FloatAxioms.div_spec.
  destruct (float64_finite n Hn) as (my & ey & ->).
  destruct (Z.eq_dec d 0) as [->|Hd0].
  - rewrite float64_zero. discriminate.
  - destruct (float64_finite d ltac:(lia)) as (mx & ex & ->).
    unfold SF64div, SFdiv.
    pose proof (SFdiv_core_nonneg mx my ex ey) as Hq.
    destruct (SFdiv_core_binary prec emax (Zpos mx) ex (Zpos my) ey) as [[mz ez] lz].
    apply binary_round_aux_not_nan. exact Hq.
Qed.

Lemma one_sub_not_nan (q : float) :
  Prim2SF q <> S754_nan -> Prim2SF (1 - q) <> S754_nan.
Proof.
  intros Hq. rewrite FloatAxioms.sub_spec.
  change (Prim2SF 1) with (S754_finite false 4503599627370496 (-52)).
  destruct (Prim2SF q) as [s|s| |s m e]; try discriminate; [congruence|].
  unfold SF64sub, SFsub. apply binary_normalize_not_nan.
Qed.

(** A float that is not NaN is [==] to itself. *)
Lemma eqb_refl_not_nan (x : float) :
  Prim2SF x <> S754_nan -> (x =? x)%float = true.
Proof.
  intros Hx. rewrite FloatAxioms.eqb_spec. unfold SFeqb, SFcompare.
  destruct (Prim2SF x) as [s|s| |s m e]; try congruence; destruct s;
    rewrite ?Z.compare_refl, ?Pos.compare_cont_refl; reflexivity.
Qed.

(** [0 / float64(n)] is [0] for a positive [n]. *)
Lemma zero_div_float64 (n : Z) :
  0 < n < 2 ^ 63 -> (0 / float64 n)%float = 0%float.
Proof.
  intros Hn. rewrite <- (SF2Prim_Prim2SF (0 / float64 n)%float), FloatAxioms.div_spec.
  destruct (float64_finite n Hn) as (m & e & ->). reflexivity.
Qed.

End Float64Facts.

(** ** Strings as code points *)

(** A string is empty exactly when [[]rune(s)] is. *)
Lemma runes_nil_iff (s : list Z) : utf8.runes s = [] <-> s = [].
Proof.
  split; [|now intros ->].
  destruct s as [|s0 t0]; [reflexivity|]. cbn [utf8.runes].
  destruct (s0 <? 0x80); [discriminate|].
  destruct (utf8.within 0xC2 0xDF s0).
  { destruct t0 as [|s1 t1]; [discriminate|].
    destruct (utf8.accept s0 s1); discriminate. }
  destruct (utf8.within 0xE0 0xEF s0).
  { destruct t0 as [|s1 [|s2 t2]]; try discriminate.
    destruct (utf8.accept s0 s1 && utf8.cont s2); discriminate. }
  destruct (utf8.within 0xF0 0xF4 s0); [|discriminate].
  destruct t0 as [|s1 [|s2 [|s3 t3]]]; try discriminate.
  destruct (utf8.accept s0 s1 && utf8.cont s2 && utf8.cont s3); discriminate.
Qed.

(** D, E acute, j, a grave: six bytes, four runes; a stray byte is U+FFFD;
    the byte order mark that [stripBOM] removes is the rune U+FEFF. *)
Example runes_deja :
  utf8.runes [0x44; 0xC3; 0xA9; 0x6A; 0xC3; 0xA0] = [0x44; 0xE9; 0x6A; 0xE0]
  /\ utf8.runes [0x61; 0xFF; 0x62] = [0x61; 0xFFFD; 0x62]
  /\ utf8.runes [0xEF; 0xBB; 0xBF] = [0xFEFF]
  /\ utf8.runes [0xF0; 0x9F; 0x8E; 0xB5] = [0x1F3B5].
Proof. repeat split. Qed.

(** ** The scorer *)

Section Similarity.

Lemma isEmpty_false (a : gostring) : a <> [] -> isEmpty a = false.
Proof. destruct a; [congruence|reflexivity]. Qed.

Lemma len_pos (a : gostring) : a <> [] -> 0 < len a.
Proof. destruct a; [congruence|]. intros _. unfold len. simpl length. lia. Qed.

(** On non-empty strings the score is [1 - d / max(len a, len b)], in
    [float64] arithmetic, for [d] the weighted edit distance of
    [DefaultOptions]. *)
Lemma similarity_formula (a b : gostring) :
  a <> [] -> b <> [] ->
  similarity a b =
  (1 - float64 (weightedDistance levenshtein.DefaultOptions a b)
       / float64 (Z.max (len a) (len b)))%float.
Proof.
  intros Ha Hb. unfold similarity.
  rewrite (isEmpty_false a Ha), (isEmpty_false b Hb). cbn [orb].
  rewrite LevenshteinFacts.DistanceForStrings_weightedDistance.
  pose proof (len_pos a Ha). pose proof (len_pos b Hb).
  assert (E : (if len b >? len a then len b else len a) = Z.max (len a) (len b)).
  { destruct (Z.gtb_spec (len b) (len a)); lia. }
  cbv zeta. rewrite E.
  destruct (Z.eqb_spec (Z.max (len a) (len b)) 0); [lia|reflexivity].
Qed.

Lemma similarity_nil_l (b : gostring) : similarity [] b = 0%float.
Proof. reflexivity. Qed.

Lemma similarity_nil_r (a : gostring) : similarity a [] = 0%float.
Proof. unfold similarity. now rewrite orb_true_r. Qed.

(** The score is never NaN (for strings whose lengths add up to an
    [int]). *)
Lemma similarity_not_nan (a b : gostring) :
  len a + len b < 2 ^ 63 -> Prim2SF (similarity a b) <> SpecFloat.S754_nan.
Proof.
  intros Hlen.
  destruct a as [|x a]; [discriminate|].
  destruct b as [|y b]; [rewrite similarity_nil_r; discriminate|].
  rewrite similarity_formula by discriminate.
  rewrite <- LevenshteinFacts.DistanceForStrings_weightedDistance.
  pose proof (LevenshteinFacts.DefaultOptions_bounds (x :: a) (y :: b)) as Hd.
  pose proof (len_pos (x :: a) ltac:(discriminate)).
  pose proof (len_pos (y :: b) ltac:(discriminate)).
  apply Float64Facts.one_sub_not_nan, Float64Facts.div_float64_not_nan; lia.
Qed.

(** C7. The score is symmetric: [similarity(a, b)] and [similarity(b, a)]
    are the same value, and Go's [==] holds between them; and
    [similarity(a, a) == 1] for every non-empty string.  (Lengths are
    [int]s.) *)
Theorem similarity_symmetric_reflexive :
  (forall a b : gostring, similarity a b = similarity b a)
  /\ (forall a b : gostring,
        len a + len b < 2 ^ 63 ->
        (similarity a b =? similarity b a)%float = true)
  /\ (forall a : gostring,
        a <> [] -> len a < 2 ^ 63 ->
        similarity a a = 1%float /\ (similarity a a =? 1)%float = true).
Proof.
  assert (Hsym : forall a b : gostring, similarity a b = similarity b a).
  { intros a b. unfold similarity.
    rewrite (orb_comm (isEmpty a) (isEmpty b)).
    rewrite (LevenshteinFacts.DefaultOptions_sym a b).
    assert (E : (if len b >? len a then len b else len a)
                = (if len a >? len b then len a else len b)).
    { destruct (Z.gtb_spec (len b) (len a)), (Z.gtb_spec (len a) (len b)); lia. }
    cbv zeta. now rewrite E. }
  split; [exact Hsym|]. split.
  - intros a b Hlen. rewrite <- (Hsym a b).
    apply Float64Facts.eqb_refl_not_nan, similarity_not_nan, Hlen.
  - intros a Ha Hlen.
    assert (E : similarity a a = 1%float).
    { rewrite (similarity_formula a a Ha Ha).
      rewrite <- LevenshteinFacts.DistanceForStrings_weightedDistance.
      rewrite LevenshteinFacts.DefaultOptions_diag, Z.max_id.
      change (float64 0) with 0%float.
      rewrite Float64Facts.zero_div_float64 by (pose proof (len_pos a Ha); lia).
      reflexivity. }
    rewrite E. split; reflexivity.
Qed.

Lemma similarity_symmetric_reflexive_witness :
  (similarity (str "abbey road") (str "abby rd")
   =? similarity (str "abby rd") (str "abbey road"))%float = true
  /\ similarity (str "abbey road") (str "abbey road") = 1%float
  /\ (similarity (str "abbey road") (str "abbey road") =? 1)%float = true.
Proof.
  split.
  - apply (proj1 (proj2 similarity_symmetric_reflexive)). reflexivity.
  - apply (proj2 (proj2 similarity_symmetric_reflexive)).
    + discriminate.
    + reflexivity.
Defined.

(** C8. If either string is empty the score is the value 0, also when both
    are empty. *)
Theorem similarity_empty :
  (forall b : gostring, similarity [] b = 0%float)
  /\ (forall a : gostring, similarity a [] = 0%float)
  /\ similarity [] [] = 0%float.
Proof.
  split; [exact similarity_nil_l|]. split; [exact similarity_nil_r|reflexivity].
Qed.

(** C9. [similarity("a", "b")] is [-1]: the distance of [DefaultOptions]
    charges 2 for the substitution, where the Levenshtein distance (that of
    [DefaultOptionsWithSub]) is 1, so the score [1 - 2/1] leaves the
    interval [0, 1]. *)
Theorem similarity_below_zero :
  levenshtein.DistanceForStrings (str "a") (str "b") levenshtein.DefaultOptions = 2
  /\ levenshtein.DistanceForStrings (str "a") (str "b")
       levenshtein.DefaultOptionsWithSub = 1
  /\ similarity (str "a") (str "b") = (-1)%float
  /\ (similarity (str "a") (str "b") <? 0)%float = true.
Proof. repeat split. Qed.

End Similarity.

(** ** The normalizer *)

Section Normalize.
Context {U : UnicodeTables}.

Lemma fold_normalizeStep (t b : gostring) :
  fold_left normalizeStep t b = b ++ filter kept t.
Proof.
  revert b. induction t as [|r t IH]; intros b; simpl.
  - now rewrite app_nil_r.
  - rewrite IH. unfold normalizeStep, kept.
    destruct (Mn r); simpl; [reflexivity|].
    destruct (IsLetter r || IsNumber r || IsSpace r); simpl; [|reflexivity].
    now rewrite <- app_assoc.
Qed.

Lemma normalize_eq (s : gostring) :
  normalize s = Join (Fields (filter kept (NFD (ToLower s)))) (str " ").
Proof. unfold normalize. now rewrite fold_normalizeStep. Qed.

Lemma fieldsFrom_fields (s : gostring) :
  forall field : option gostring,
    (forall w, field = Some w -> isField w) ->
    Forall isField (fieldsFrom s field).
Proof.
  induction s as [|r s IH]; intros field Hf; simpl.
  - destruct field as [w|]; constructor; auto.
  - destruct (IsSpace r) eqn:Er.
    + destruct field as [w|]; [constructor; auto|]; apply IH; discriminate.
    + apply IH. intros w Hw. injection Hw as <-.
      destruct field as [w|].
      * destruct (Hf w eq_refl) as [Hn Hs]. split.
        -- destruct w; discriminate.
        -- intros x Hx. apply in_app_or in Hx as [Hx|[<-|[]]]; auto.
      * split; [discriminate|]. intros x [<-|[]]. exact Er.
Qed.

Lemma fieldsFrom_In (s : gostring) :
  forall (field : option gostring) (w : gostring) (r : rune),
    In w (fieldsFrom s field) -> In r w ->
    In r s \/ exists w', field = Some w' /\ In r w'.
Proof.
  induction s as [|x s IH]; intros field w r Hw Hr; simpl in Hw.
  - destruct field as [w'|]; [|contradiction].
    destruct Hw as [<-|[]]. right. eauto.
  - destruct (IsSpace x).
    + destruct field as [w'|].
      * destruct Hw as [<-|Hw]; [right; eauto|].
        destruct (IH None w r Hw Hr) as [H|(w'' & H & _)]; [left; now right|discriminate].
      * destruct (IH None w r Hw Hr) as [H|(w'' & H & _)]; [left; now right|discriminate].
    + destruct (IH _ w r Hw Hr) as [H|(w'' & H & Hin)]; [left; now right|].
      injection H as <-. destruct field as [w'|].
      * apply in_app_or in Hin as [Hin|[<-|[]]]; [right; eauto|left; now left].
      * destruct Hin as [<-|[]]. left; now left.
Qed.

Lemma fieldsFrom_app (w rest : gostring) :
  (forall r, In r w -> IsSpace r = false) ->
  forall acc : gostring,
    fieldsFrom (w ++ rest) (Some acc) = fieldsFrom rest (Some (acc ++ w)).
Proof.
  induction w as [|r w IH]; intros Hw acc; simpl.
  - now rewrite app_nil_r.
  - rewrite (Hw r (or_introl eq_refl)). rewrite IH by (intros; apply Hw; now right).
    now rewrite <- app_assoc.
Qed.

Lemma fieldsFrom_field (w rest : gostring) :
  isField w -> fieldsFrom (w ++ rest) None = fieldsFrom rest (Some w).
Proof.
  intros [Hn Hs]. destruct w as [|r w]; [congruence|]. simpl.
  rewrite (Hs r (or_introl eq_refl)).
  apply (fieldsFrom_app w rest); intros; apply Hs; now right.
Qed.

(** Joining fields with one space and splitting again gives the fields. *)
Lemma Fields_Join (ws : list gostring) :
  Forall isField ws -> Fields (Join ws (str " ")) = ws.
Proof.
  unfold Fields. induction 1 as [|w ws Hw Hws IH]; [reflexivity|].
  destruct ws as [|w' ws].
  - simpl Join. rewrite <- (app_nil_r w), fieldsFrom_field by assumption.
    now rewrite app_nil_r.
  - change (Join (w :: w' :: ws) (str " "))
      with (w ++ str " " ++ Join (w' :: ws) (str " ")).
    rewrite fieldsFrom_field by assumption.
    change (str " " ++ Join (w' :: ws) (str " "))
      with (0x20 :: Join (w' :: ws) (str " ")).
    cbn [fieldsFrom]. change (IsSpace 32) with true. cbv iota.
    now rewrite IH.
Qed.

Lemma Join_In (ws : list gostring) (sep : gostring) (r : rune) :
  In r (Join ws sep) -> In r sep \/ exists w, In w ws /\ In r w.
Proof.
  induction ws as [|w ws IH]; [contradiction|].
  destruct ws as [|w' ws].
  - simpl. intros H. right. exists w. auto.
  - change (Join (w :: w' :: ws) sep) with (w ++ sep ++ Join (w' :: ws) sep).
    intros H. apply in_app_or in H as [H|H]; [right; exists w; split; [now left|assumption]|].
    apply in_app_or in H as [H|H]; [now left|].
    destruct (IH H) as [H'|(w0 & Hw0 & Hr)]; [now left|].
    right. exists w0. split; [now right|assumption].
Qed.

Lemma map_fixed {A : Type} (f : A -> A) (l : list A) :
  (forall x, In x l -> f x = x) -> map f l = l.
Proof.
  induction l as [|x l IH]; intros H; simpl; [reflexivity|].
  rewrite (H x (or_introl eq_refl)), IH; [reflexivity|].
  intros; apply H; now right.
Qed.

Lemma filter_all {A : Type} (f : A -> bool) (l : list A) :
  (forall x, In x l -> f x = true) -> filter f l = l.
Proof.
  induction l as [|x l IH]; intros H; simpl; [reflexivity|].
  rewrite (H x (or_introl eq_refl)), IH; [reflexivity|].
  intros; apply H; now right.
Qed.

(** Every rune of [normalize s] is a space or a kept letter or number of
    the decomposed lower-cased text. *)
Lemma normalize_In (s : gostring) (r : rune) :
  In r (normalize s) ->
  r = 0x20 \/
  (In r (NFD (ToLower s)) /\ Mn r = false /\ IsLetter r || IsNumber r = true).
Proof.
  rewrite normalize_eq. intros H.
  apply Join_In in H as [[<-|[]]|(w & Hw & Hr)]; [now left|right].
  pose proof (fieldsFrom_fields (filter kept (NFD (ToLower s))) None
                ltac:(discriminate)) as Hf.
  rewrite Forall_forall in Hf. destruct (Hf w Hw) as [_ Hs].
  destruct (fieldsFrom_In _ None w r Hw Hr) as [Hin|(w' & E & _)]; [|discriminate].
  apply filter_In in Hin as [Hin Hk]. split; [exact Hin|].
  unfold kept in Hk. rewrite (Hs r Hr), orb_false_r in Hk.
  apply andb_prop in Hk as [Hm Hl]. split; [|exact Hl].
  now destruct (Mn r).
Qed.

(** [normalize] lower-cases first, so the [strings.ToLower] that
    [renderForm] applies before it changes nothing when [unicode.ToLower] is
    idempotent. *)
Lemma normalize_ToLower (s : gostring) :
  (forall r, toLower (toLower r) = toLower r) ->
  normalize (ToLower s) = normalize s.
Proof.
  intros H. unfold normalize. f_equal. f_equal. f_equal. f_equal.
  unfold ToLower. rewrite map_map. apply map_ext. exact H.
Qed.

(** C6. [normalize] is idempotent: [normalize(normalize(s)) == normalize(s)]
    for every string [s], for tables that obey [UnicodeLaws]. *)
Theorem normalize_idempotent (L : UnicodeLaws U) (s : gostring) :
  normalize (normalize s) = normalize s.
Proof.
  assert (Hl : ToLower (normalize s) = normalize s).
  { apply map_fixed. intros r Hr.
    destruct (normalize_In s r Hr) as [->|(Hin & Hm & Ha)]; [reflexivity|].
    exact (lower_NFD_lower L s r Hin Hm Ha). }
  assert (Hn : NFD (normalize s) = normalize s).
  { apply (NFD_stable L). intros r Hr.
    destruct (normalize_In s r Hr) as [->|(Hin & Hm & Ha)]; [now left|right].
    repeat split; eauto. }
  assert (Hk : filter kept (normalize s) = normalize s).
  { apply filter_all. intros r Hr. unfold kept.
    destruct (normalize_In s r Hr) as [->|(Hin & Hm & Ha)].
    - rewrite (space_not_Mn L 0x20 eq_refl). now rewrite !orb_true_r.
    - rewrite Hm, Ha. reflexivity. }
  rewrite (normalize_eq (normalize s)), Hl, Hn, Hk.
  rewrite (normalize_eq s) at 1.
  rewrite Fields_Join; [symmetry; apply normalize_eq|].
  apply fieldsFrom_fields. discriminate.
Qed.

End Normalize.

(** ** The Latin-1 tables obey the laws *)

Module Latin1Facts.
Import latin1.

Lemma lookup_In (r : rune) (d : rune * rune) (table : list (rune * (rune * rune))) :
  lookup r table = Some d -> In (r, d) table.
Proof.
  induction table as [|[c d'] table IH]; simpl; [discriminate|].
  destruct (Z.eqb_spec r c) as [->|_].
  - intros H. injection H as ->. now left.
  - intros H. right. now apply IH.
Qed.

Lemma decompositions_ok : forallb entryOk decompositions = true.
Proof. reflexivity. Qed.

Lemma lookup_ok (r base m : rune) :
  lookup r decompositions = Some (base, m) ->
  mark m = true
  /\ ((0xC0 <= r <= 0xDE /\ r <> 0xD7 /\ 0x41 <= base <= 0x5A)
      \/ (0xDF <= r <= 0xFF /\ 0x61 <= base <= 0x7A)).
Proof.
  intros H. apply lookup_In in H.
  pose proof decompositions_ok as Hok. rewrite forallb_forall in Hok.
  apply Hok in H. unfold entryOk in H.
  apply andb_prop in H as [Hm H]. split; [exact Hm|].
  apply orb_prop in H as [H|H]; [left|right];
    repeat match goal with
           | H : _ && _ = true |- _ => apply andb_prop in H as [? ?]
           | H : negb _ = true |- _ => apply negb_true_iff in H
           | H : (_ <=? _) = true |- _ => apply Z.leb_le in H
           | H : (_ =? _) = false |- _ => apply Z.eqb_neq in H
           end; lia.
Qed.

Lemma lookup_below (r : rune) : r < 0xC0 -> lookup r decompositions = None.
Proof.
  intros Hr. destruct (lookup r decompositions) as [[base m]|] eqn:E; [|reflexivity].
  apply lookup_ok in E. lia.
Qed.

Lemma toLower_cases (x : rune) :
  (0x41 <= x <= 0x5A /\ @toLower tables x = x + 0x20)
  \/ (0xC0 <= x <= 0xDE /\ x <> 0xD7 /\ @toLower tables x = x + 0x20)
  \/ (~ (0x41 <= x <= 0x5A) /\ ~ (0xC0 <= x <= 0xDE /\ x <> 0xD7)
      /\ @toLower tables x = x).
Proof.
  unfold toLower, MaxASCII. simpl lowerCase. unfold lower.
  destruct (Z.leb_spec x 0x7F), (Z.leb_spec 0x41 x), (Z.leb_spec x 0x5A),
    (Z.leb_spec 0xC0 x), (Z.leb_spec x 0xDE), (Z.eqb_spec x 0xD7);
    cbn [andb negb]; lia.
Qed.

Lemma toLower_range (x : rune) :
  @toLower tables (@toLower tables x) = @toLower tables x
  /\ ~ (0x41 <= @toLower tables x <= 0x5A)
  /\ ~ (0xC0 <= @toLower tables x <= 0xDE /\ @toLower tables x <> 0xD7).
Proof.
  destruct (toLower_cases x) as [(H & ->)|[(H & H' & ->)|(H & H' & ->)]];
    destruct (toLower_cases (x + 0x20)) as [(G & E)|[(G & G' & E)|(G & G' & E)]];
    destruct (toLower_cases x) as [(K & E')|[(K & K' & E')|(K & K' & E')]];
    lia.
Qed.

Lemma toLower_lowercase (base : rune) :
  0x61 <= base <= 0x7A -> @toLower tables base = base.
Proof.
  intros H. unfold toLower, MaxASCII.
  destruct (Z.leb_spec base 127); [|lia].
  destruct (Z.leb_spec 65 base), (Z.leb_spec base 90); simpl; lia.
Qed.

Lemma flat_map_fixed (t : gostring) :
  (forall r, In r t -> lookup r decompositions = None) ->
  flat_map decompose t = t.
Proof.
  induction t as [|r t IH]; intros H; simpl; [reflexivity|].
  unfold decompose at 1. rewrite (H r (or_introl eq_refl)). simpl.
  f_equal. apply IH. intros; apply H; now right.
Qed.

Lemma laws : UnicodeLaws tables.
Proof.
  split.
  - intros r Hr. simpl. unfold mark.
    destruct (Z.leb_spec 0x300 r), (Z.leb_spec r 0x36F); try reflexivity.
    unfold IsSpace, MaxLatin1 in Hr.
    repeat match type of Hr with
           | context [?a <=? ?b] => destruct (Z.leb_spec a b); simpl in Hr
           | context [?a =? ?b] => destruct (Z.eqb_spec a b); simpl in Hr
           end; try discriminate; lia.
  - intros s r Hin Hm _. simpl in Hin, Hm.
    apply in_flat_map in Hin as (y & Hy & Hr).
    apply in_map_iff in Hy as (x & <- & _).
    destruct (toLower_range x) as (Hfix & Hup & Hup').
    unfold decompose in Hr.
    destruct (lookup (toLower x) decompositions) as [[base m]|] eqn:E.
    + apply lookup_ok in E as [Hmark [H|H]]; [lia|].
      destruct Hr as [<-|[<-|[]]]; [now apply toLower_lowercase|congruence].
    + destruct Hr as [<-|[]]. exact Hfix.
  - intros t Ht. simpl. apply flat_map_fixed. intros r Hr.
    destruct (Ht r Hr) as [->|(Hm & _ & s & Hs)]; [reflexivity|].
    simpl in Hm, Hs. apply in_flat_map in Hs as (x & _ & Hx).
    unfold decompose in Hx.
    destruct (lookup x decompositions) as [[base m]|] eqn:E.
    + apply lookup_ok in E as [Hmark H].
      destruct Hx as [<-|[<-|[]]]; [apply lookup_below; lia|congruence].
    + destruct Hx as [<-|[]]. exact E.
Qed.

End Latin1Facts.

Lemma normalize_idempotent_witness :
  let s := [0x20; 0x44; 0xC9; 0x4A; 0xC0; 0x20; 0xA0; 0x56; 0x75; 0x21] in
  @normalize latin1.tables (@normalize latin1.tables s)
  = @normalize latin1.tables s.
Proof. exact (@normalize_idempotent latin1.tables Latin1Facts.laws _). Defined.

(** Upper-case D, E acute, J, A grave, a space and a no-break space, then
    [Vu!]: the normal form is [deja vu]. *)
Example normalize_deja_vu :
  @normalize latin1.tables
    [0x20; 0x44; 0xC9; 0x4A; 0xC0; 0x20; 0xA0; 0x56; 0x75; 0x21]
  = str "deja vu".
Proof. reflexivity. Qed.

Example normalize_abbey_road :
  @normalize latin1.tables (str "  Abbey   Road (Remastered)! ")
  = str "abbey road remastered".
Proof. reflexivity. Qed.

Example normalize_symbols : @normalize latin1.tables (str "***") = [].
Proof. reflexivity. Qed.

(** ** Reconciliation *)

Section ReconcileFacts.
Context {U : UnicodeTables}.

Lemma isDuplicate_existsb (loc : Album) (reference : list Album) :
  isDuplicate (normTitle loc) (normArtist loc) reference
  = existsb (acceptedMatch loc) reference.
Proof.
  induction reference as [|ref reference IH]; [reflexivity|].
  cbn [isDuplicate existsb]. cbv zeta. rewrite IH.
  unfold acceptedMatch, normTitle, normArtist.
  now destruct (_ && _).
Qed.

Lemma reconcile_fold (reference local acc : list Album) :
  fold_left (reconcileStep reference) local acc
  = acc ++ filter (fun loc => negb (existsb (acceptedMatch loc) reference)) local.
Proof.
  revert acc. induction local as [|loc local IH]; intros acc; simpl.
  - now rewrite app_nil_r.
  - rewrite IH. unfold reconcileStep. cbv zeta.
    fold (normTitle loc). fold (normArtist loc). rewrite isDuplicate_existsb.
    destruct (existsb (acceptedMatch loc) reference); simpl; [reflexivity|].
    now rewrite <- app_assoc.
Qed.

(** The unique records are the local records without accepted match, in
    their order. *)
Lemma reconcile_filter (local reference : list Album) :
  reconcile local reference
  = filter (fun loc => negb (existsb (acceptedMatch loc) reference)) local.
Proof. unfold reconcile. now rewrite reconcile_fold. Qed.

(** The inner loop looks at the reference records up to the first accepted
    match and no further. *)
Lemma scanned_first (loc : Album) (reference : list Album) :
  (exists before m after,
      reference = before ++ m :: after
      /\ (forall r, In r before -> acceptedMatch loc r = false)
      /\ acceptedMatch loc m = true
      /\ scanned (normTitle loc) (normArtist loc) reference = before ++ [m]
      /\ isDuplicate (normTitle loc) (normArtist loc) reference = true)
  \/ ((forall r, In r reference -> acceptedMatch loc r = false)
      /\ scanned (normTitle loc) (normArtist loc) reference = reference
      /\ isDuplicate (normTitle loc) (normArtist loc) reference = false).
Proof.
  induction reference as [|ref reference IH].
  - right. repeat split. intros r [].
  - cbn [scanned isDuplicate]. cbv zeta.
    change ((0.75 <? similarity (normTitle loc) (normalize (ToLower (Name ref))))%float
            && (0.75 <? similarity (normArtist loc)
                          (normalize (ToLower (AlbumArtist ref))))%float)
      with (acceptedMatch loc ref).
    destruct (acceptedMatch loc ref) eqn:E.
    + left. exists [], ref, reference. repeat split; auto. intros r [].
    + destruct IH as [(before & m & after & -> & Hb & Hm & Hs & Hd)|(Hn & Hs & Hd)].
      * left. exists (ref :: before), m, after. repeat split; auto.
        -- intros r [<-|Hr]; auto.
        -- simpl. now rewrite Hs.
      * right. repeat split; auto.
        -- intros r [<-|Hr]; auto.
        -- now rewrite Hs.
Qed.

(** C1. Reconciliation returns exactly the local records without accepted
    match, in the order of the local catalog; a reference record is an
    accepted match iff both similarities of the normalized fields are
    strictly above 0.75; the scan of the reference catalog goes in input
    order and stops at the first accepted match. *)
Theorem reconcile_unique_records (local reference : list Album) :
  reconcile local reference
  = filter (fun loc => negb (existsb (acceptedMatch loc) reference)) local
  /\ (forall loc ref : Album,
        acceptedMatch loc ref = true <->
        (0.75 <? similarity (normTitle loc) (normTitle ref))%float = true
        /\ (0.75 <? similarity (normArtist loc) (normArtist ref))%float = true)
  /\ (forall loc : Album,
        (exists before m after,
            reference = before ++ m :: after
            /\ (forall r, In r before -> acceptedMatch loc r = false)
            /\ acceptedMatch loc m = true
            /\ scanned (normTitle loc) (normArtist loc) reference = before ++ [m]
            /\ isDuplicate (normTitle loc) (normArtist loc) reference = true)
        \/ ((forall r, In r reference -> acceptedMatch loc r = false)
            /\ scanned (normTitle loc) (normArtist loc) reference = reference
            /\ isDuplicate (normTitle loc) (normArtist loc) reference = false)).
Proof.
  split; [apply reconcile_filter|]. split; [|intros loc; apply scanned_first].
  intros loc ref. unfold acceptedMatch. apply andb_true_iff.
Qed.

Lemma acceptedMatch_empty (loc ref : Album) :
  normTitle loc = [] \/ normArtist loc = [] -> acceptedMatch loc ref = false.
Proof.
  unfold acceptedMatch. intros [E|E]; rewrite E, similarity_nil_l.
  - reflexivity.
  - apply andb_false_r.
Qed.

(** C10. A local record whose normalized title or normalized contributor
    is empty is unique whatever the reference catalog holds. *)
Theorem empty_field_is_unique (local reference : list Album) (loc : Album) :
  In loc local ->
  normTitle loc = [] \/ normArtist loc = [] ->
  In loc (reconcile local reference).
Proof.
  intros Hin He. rewrite reconcile_filter. apply filter_In. split; [exact Hin|].
  apply negb_true_iff, not_true_iff_false. intros Hex.
  apply existsb_exists in Hex as (ref & _ & Hacc).
  now rewrite (acceptedMatch_empty loc ref He) in Hacc.
Qed.

Lemma reconcile_In (local reference : list Album) (x : Album) :
  In x (reconcile local reference) -> In x local.
Proof. rewrite reconcile_filter. intros H. now apply filter_In in H. Qed.

Lemma reconcile_twice (local r1 r2 : list Album) :
  reconcile (reconcile local r1) r2 = reconcile local (r1 ++ r2).
Proof.
  rewrite !reconcile_filter. induction local as [|loc local IH]; [reflexivity|].
  simpl. rewrite existsb_app.
  destruct (existsb (acceptedMatch loc) r1); simpl; [exact IH|].
  destruct (existsb (acceptedMatch loc) r2); simpl; [exact IH|].
  now rewrite IH.
Qed.

Lemma reconcile_nil (local : list Album) : reconcile local [] = local.
Proof. rewrite reconcile_filter. apply filter_all. reflexivity. Qed.

(** [albumList = filtered] comes before the template is executed: what the
    template returns changes the reply and not [albumList]. *)
Lemma renderForm_fst (ExecuteTemplate : Page -> option error)
    (albums : list Album) (errMsg : gostring) (albumList : list Album) :
  fst (renderForm ExecuteTemplate albums errMsg albumList)
  = reconcile albumList albums.
Proof. unfold renderForm. cbv zeta. now destruct (ExecuteTemplate _). Qed.

Lemma renderForm_snd (ExecuteTemplate : Page -> option error)
    (albums : list Album) (errMsg : gostring) (albumList : list Album) :
  let data :=
    {| pageAlbums := reconcile albumList albums;
       pageJSON := if 0 <? len albums then albums else [];
       pageErr := errMsg |} in
  snd (renderForm ExecuteTemplate albums errMsg albumList)
  = match ExecuteTemplate data with
    | None => replyPage data
    | Some err => replyError (errorText err) StatusInternalServerError
    end.
Proof. unfold renderForm. cbv zeta. now destruct (ExecuteTemplate _). Qed.

Lemma renderAll_concat (ExecuteTemplate : Page -> option error)
    (references : list (list Album)) (albumList : list Album) :
  renderAll ExecuteTemplate references albumList
  = reconcile albumList (concat references).
Proof.
  unfold renderAll. revert albumList.
  induction references as [|r references IH]; intros albumList; simpl.
  - now rewrite reconcile_nil.
  - rewrite IH, renderForm_fst. apply reconcile_twice.
Qed.

(** C2, as the code has it. Reconciliation changes no record and returns
    the records of the catalog it reads that have no accepted match, in
    their order; but [renderForm] stores the result in [albumList], whatever
    the template then returns: the page (or the status 500) is made of the
    stored result, the next call reads what the last one left, and after
    calls against [references] the catalog is the reconciliation of the
    first catalog against all of them together. *)
Theorem renderForm_replaces_albumList :
  (forall albumList albums : list Album,
      reconcile albumList albums
      = filter (fun loc => negb (existsb (acceptedMatch loc) albums)) albumList)
  /\ (forall (ExecuteTemplate : Page -> option error)
        (albums : list Album) (errMsg : gostring) (albumList : list Album),
        fst (renderForm ExecuteTemplate albums errMsg albumList)
        = reconcile albumList albums
        /\ (let data :=
              {| pageAlbums := reconcile albumList albums;
                 pageJSON := if 0 <? len albums then albums else [];
                 pageErr := errMsg |} in
            snd (renderForm ExecuteTemplate albums errMsg albumList)
            = match ExecuteTemplate data with
              | None => replyPage data
              | Some err => replyError (errorText err) StatusInternalServerError
              end))
  /\ (forall (albumList albums : list Album) (x : Album),
        In x (reconcile albumList albums) -> In x albumList)
  /\ (forall (ExecuteTemplate : Page -> option error)
        (references : list (list Album)) (albumList : list Album),
        renderAll ExecuteTemplate references albumList
        = reconcile albumList (concat references)).
Proof.
  split; [exact reconcile_filter|].
  split; [intros; split; [apply renderForm_fst | apply renderForm_snd]|].
  split; [exact reconcile_In | exact renderAll_concat].
Qed.

End ReconcileFacts.

Lemma empty_field_is_unique_witness :
  In untitled (@reconcile latin1.tables [abbeyRoad; untitled] [untitled; abbeyRoad]).
Proof.
  apply (@empty_field_is_unique latin1.tables).
  - simpl. auto.
  - left. reflexivity.
Defined.

(** C2, as the specification has it, fails: after a run against a
    reference that holds Abbey Road, [albumList] is no longer the local
    catalog, and a run against the empty reference returns one record where
    reconciling the local catalog returns two. *)
Lemma renderForm_results_persist :
  let local := [abbeyRoad; letItBleed] in
  let previous := [abbeyRoad] in
  let after := fst (@renderForm latin1.tables executes previous [] local) in
  after <> local
  /\ fst (@renderForm latin1.tables executes [] [] after) = [letItBleed]
  /\ @reconcile latin1.tables local [] = [abbeyRoad; letItBleed]
  /\ fst (@renderForm latin1.tables executes [] [] after)
     <> @reconcile latin1.tables local [].
Proof.
  vm_compute. repeat split; discriminate.
Qed.

(** The threshold is strict: a title at similarity exactly 0.75 is no
    match. *)
Example threshold_is_strict :
  similarity (str "abcd") (str "abc") = 0.75%float
  /\ @acceptedMatch latin1.tables (album (str "abcd") (str "x"))
       (album (str "abc") (str "x")) = false
  /\ @acceptedMatch latin1.tables (album (str "abcde") (str "x"))
       (album (str "abcd") (str "x")) = true.
Proof. vm_compute. repeat split. Qed.

Example reconcile_abbey_road :
  @reconcile latin1.tables [abbeyRoad; letItBleed; untitled] [untitled; abbeyRoad]
  = [letItBleed; untitled].
Proof. vm_compute. reflexivity. Qed.

(** ** The fetcher *)

Section Fetcher.
Variables (w : World) (c : Client).

Lemma len_app {A : Type} (xs ys : list A) : len (xs ++ ys) = len xs + len ys.
Proof. unfold len. rewrite length_app. lia. Qed.

Lemma received_cons (page : itemsResponse) (pages : list itemsResponse) :
  received (page :: pages) = len (Items page) + received pages.
Proof. unfold received. simpl. apply len_app. Qed.

Lemma received_snoc (pages : list itemsResponse) (page : itemsResponse) :
  received (pages ++ [page]) = received pages + len (Items page).
Proof.
  unfold received. rewrite map_app, concat_app, len_app. simpl.
  now rewrite app_nil_r.
Qed.

(** One iteration on a page that arrives with status 200. *)
Lemma loopBody_page (n : nat) (start : Z) (all : list Album) (page : itemsResponse) :
  newRequest w (buildRequest c start) = None ->
  Do w n (buildRequest c start) = inr {| StatusCode := StatusOK; Body := inr page |} ->
  loopBody w c n start all
  = ([buildRequest c start],
     if exits (start + len (Items page)) page
     then Break (start + len (Items page)) (all ++ Items page)
     else Continue (start + len (Items page)) (all ++ Items page)).
Proof.
  intros Hreq Hdo. unfold loopBody. rewrite Hreq, Hdo. simpl.
  unfold exits. now destruct (_ || _).
Qed.

(** One iteration on a failed request. *)
Lemma loopBody_failure (n : nat) (start : Z) (all : list Album) (e : error) :
  newRequest w (buildRequest c start) = None ->
  pageFailure (Do w n (buildRequest c start)) = Some e ->
  loopBody w c n start all = ([buildRequest c start], Return [] (Some e)).
Proof.
  intros Hreq Hfail. unfold loopBody. rewrite Hreq.
  destruct (Do w n (buildRequest c start)) as [err|resp]; simpl in Hfail.
  - now injection Hfail as ->.
  - destruct (StatusCode resp =? StatusOK); simpl.
    + destruct (Body resp); [now injection Hfail as ->|discriminate].
    + now injection Hfail as ->.
Qed.

(** The iterations that receive pages which do not end the loop. *)
Lemma fetchLoop_served (pages : list itemsResponse) :
  forall (fuel n : nat) (start : Z) (all : list Album),
    served w c n start pages -> noneExits start pages ->
    fetchLoop (length pages + fuel) w c n start all
    = match fetchLoop fuel w c (n + length pages) (start + received pages)
              (all ++ concat (map Items pages)) with
      | Some f =>
          Some {| requests := map (buildRequest c) (startIndices start pages)
                              ++ requests f;
                  albums := albums f; failure := failure f |}
      | None => None
      end.
Proof.
  induction pages as [|page pages IH]; intros fuel n start all Hs Hn.
  - simpl. rewrite Nat.add_0_r, app_nil_r.
    replace (start + received []) with start by (unfold received, len; simpl; lia).
    now destruct (fetchLoop fuel w c n start all) as [[]|].
  - destruct Hs as (Hreq & Hdo & Hs). destruct Hn as (Hex & Hn).
    cbn [length Nat.add fetchLoop].
    rewrite (loopBody_page n start all page Hreq Hdo), Hex.
    rewrite (IH fuel (n + 1)%nat _ _); [|now rewrite Nat.add_1_r|exact Hn].
    rewrite received_cons, Z.add_assoc, <- app_assoc.
    replace (n + 1 + length pages)%nat with (n + S (length pages))%nat by lia.
    cbn [map concat startIndices]. cbn [length].
    now destruct (fetchLoop fuel w c _ _ _).
Qed.

Lemma served_app (pages pages' : list itemsResponse) :
  forall (n : nat) (start : Z),
    served w c n start (pages ++ pages') ->
    served w c n start pages
    /\ served w c (n + length pages) (start + received pages) pages'.
Proof.
  induction pages as [|page pages IH]; intros n start H.
  - simpl. rewrite Nat.add_0_r.
    replace (start + received []) with start by (unfold received, len; simpl; lia).
    auto.
  - destruct H as (Hreq & Hdo & H). apply IH in H as [H1 H2].
    split; [repeat split; assumption|].
    rewrite received_cons, Z.add_assoc. cbn [length].
    now replace (n + S (length pages))%nat with (S n + length pages)%nat by lia.
Qed.

Lemma startIndices_snoc (pages : list itemsResponse) (page : itemsResponse) :
  forall start,
    startIndices start (pages ++ [page])
    = startIndices start pages ++ [start + received pages].
Proof.
  induction pages as [|p pages IH]; intros start; simpl.
  - f_equal. unfold received, len. simpl. lia.
  - rewrite IH, received_cons. f_equal. f_equal. f_equal. lia.
Qed.

(** C3. The fetcher asks for pages of 200 from offset 0, moves the offset
    by the number of items each page holds, appends the items in the order
    received, and ends after the first page at which the items received
    reach the reported total or which is empty: not before, and there. *)
Theorem GetAllAlbums_pagination (pages : list itemsResponse)
    (final : itemsResponse) (fuel : nat) :
  urlParse w (BaseURL c) = None ->
  served w c 0 0 (pages ++ [final]) ->
  noneExits 0 pages ->
  exits (received (pages ++ [final])) final = true ->
  (length pages < fuel)%nat ->
  GetAllAlbums fuel w c
  = Some {| requests := map (buildRequest c) (startIndices 0 (pages ++ [final]));
            albums := concat (map Items (pages ++ [final]));
            failure := None |}
  /\ (forall start, Limit (buildRequest c start) = 200
                    /\ StartIndex (buildRequest c start) = start)
  /\ GetAllAlbums (length pages) w c = None.
Proof.
  intros Hurl Hs Hn Hex Hfuel. unfold GetAllAlbums. rewrite Hurl.
  apply served_app in Hs as [Hs (Hreq & Hdo & _)]. simpl in Hreq, Hdo.
  split; [|split; [intros; split; reflexivity|]].
  - replace fuel with (length pages + S (fuel - S (length pages)))%nat by lia.
    rewrite (fetchLoop_served pages _ 0%nat 0 [] Hs Hn).
    cbn [fetchLoop]. rewrite (loopBody_page _ _ _ final Hreq Hdo).
    rewrite received_snoc in Hex. simpl Z.add. rewrite Hex.
    rewrite startIndices_snoc, !map_app, concat_app. simpl.
    now rewrite app_nil_r.
  - replace (length pages) with (length pages + 0)%nat at 1 by lia.
    now rewrite (fetchLoop_served pages _ 0%nat 0 [] Hs Hn).
Qed.

(** A fetch that returns an error returns no album. *)
Lemma fetchLoop_failure_no_albums (fuel : nat) :
  forall (n : nat) (start : Z) (all : list Album) (f : Fetch),
    fetchLoop fuel w c n start all = Some f ->
    failure f <> None -> albums f = [].
Proof.
  induction fuel as [|fuel IH]; intros n start all f; [discriminate|].
  cbn [fetchLoop]. destruct (loopBody w c n start all) as [sent it] eqn:Eb.
  destruct it as [items err|si all'|si all'].
  - intros H Hf. injection H as <-. simpl in *.
    unfold loopBody in Eb.
    destruct (newRequest w _); [now injection Eb as _ <- _|].
    destruct (Do w n _) as [e|resp]; [now injection Eb as _ <- _|].
    destruct (negb _); [now injection Eb as _ <- _|].
    destruct (Body resp); [now injection Eb as _ <- _|].
    destruct (_ || _); discriminate.
  - intros H Hf. injection H as <-. simpl in Hf. congruence.
  - destruct (fetchLoop fuel w c _ si all') as [f'|] eqn:E; [|discriminate].
    intros H Hf. injection H as <-. simpl in *. eapply IH; eauto.
Qed.

(** C4. When a page request ends in a transport error, a status other than
    200 or a body that does not decode, the fetch returns that error and no
    album, whatever the pages before it held; and no fetch returns an
    error together with albums. *)
Theorem GetAllAlbums_failure (pages : list itemsResponse) (fuel : nat) (e : error) :
  urlParse w (BaseURL c) = None ->
  served w c 0 0 pages ->
  noneExits 0 pages ->
  newRequest w (buildRequest c (received pages)) = None ->
  pageFailure (Do w (length pages) (buildRequest c (received pages))) = Some e ->
  (length pages < fuel)%nat ->
  GetAllAlbums fuel w c
  = Some {| requests := map (buildRequest c) (startIndices 0 pages)
                        ++ [buildRequest c (received pages)];
            albums := [];
            failure := Some e |}
  /\ (forall (fuel' : nat) (f : Fetch),
        GetAllAlbums fuel' w c = Some f -> failure f <> None -> albums f = []).
Proof.
  intros Hurl Hs Hn Hreq Hfail Hfuel. unfold GetAllAlbums. rewrite Hurl. split.
  - replace fuel with (length pages + S (fuel - S (length pages)))%nat by lia.
    rewrite (fetchLoop_served pages _ 0%nat 0 [] Hs Hn).
    cbn [fetchLoop]. simpl Z.add. simpl Nat.add.
    now rewrite (loopBody_failure _ _ _ e Hreq Hfail).
  - intros fuel' f. apply fetchLoop_failure_no_albums.
Qed.

End Fetcher.

Lemma GetAllAlbums_pagination_witness :
  GetAllAlbums 2 twoPages jellyfin
  = Some {| requests := map (buildRequest jellyfin)
                          (startIndices 0 ([firstPage] ++ [secondPage]));
            albums := concat (map Items ([firstPage] ++ [secondPage]));
            failure := None |}
  /\ (forall start, Limit (buildRequest jellyfin start) = 200
                    /\ StartIndex (buildRequest jellyfin start) = start)
  /\ GetAllAlbums (length [firstPage]) twoPages jellyfin = None.
Proof.
  apply (GetAllAlbums_pagination twoPages jellyfin [firstPage] secondPage 2).
  - reflexivity.
  - simpl. repeat split; reflexivity.
  - simpl. split; [reflexivity|exact I].
  - reflexivity.
  - simpl. lia.
Defined.

Example GetAllAlbums_two_requests :
  option_map (fun f => (map StartIndex (requests f), len (albums f), failure f))
    (GetAllAlbums 2 twoPages jellyfin)
  = Some ([0; 200], 250, None).
Proof. vm_compute. reflexivity. Qed.

(** Short pages move the offset by what they hold, not by 200. *)
Example GetAllAlbums_short_pages :
  option_map (fun f => (map StartIndex (requests f), map Limit (requests f),
                        len (albums f), failure f))
    (GetAllAlbums 5 shortPages jellyfin)
  = Some ([0; 3], [200; 200], 5, None).
Proof. vm_compute. reflexivity. Qed.

(** An empty page ends the loop whatever total is reported. *)
Example GetAllAlbums_empty_page :
  option_map (fun f => (map StartIndex (requests f), len (albums f), failure f))
    (GetAllAlbums 5 misreporting jellyfin)
  = Some ([0; 2], 2, None).
Proof. vm_compute. reflexivity. Qed.

Lemma GetAllAlbums_failure_witness :
  GetAllAlbums 3 unauthorized jellyfin
  = Some {| requests := map (buildRequest jellyfin) (startIndices 0 [firstPage])
                        ++ [buildRequest jellyfin (received [firstPage])];
            albums := [];
            failure := Some (errBadStatus 401) |}
  /\ (forall (fuel' : nat) (f : Fetch),
        GetAllAlbums fuel' unauthorized jellyfin = Some f ->
        failure f <> None -> albums f = []).
Proof.
  apply (GetAllAlbums_failure unauthorized jellyfin [firstPage] 3 (errBadStatus 401)).
  - reflexivity.
  - simpl. repeat split; reflexivity.
  - simpl. split; [reflexivity|exact I].
  - reflexivity.
  - reflexivity.
  - simpl. lia.
Defined.

(** ** The parser *)

Section Parser.

Lemma len_trimAll (cols : list gostring) : len (trimAll cols) = len cols.
Proof. unfold len, trimAll. now rewrite length_map. Qed.

Lemma index_in_range {A : Type} (xs : list A) (i : nat) :
  Z.of_nat i < len xs -> exists x, index xs i = inr x.
Proof.
  unfold index, len. intros H.
  destruct (nth_error xs i) as [x|] eqn:E; [eauto|].
  apply nth_error_None in E. lia.
Qed.

(** A data row of fewer than seven columns panics at [cols[6]]; a longer
    one gives an album. *)
Lemma parseRow_short (cols : list gostring) :
  len cols < 7 -> parseRow cols = inl (indexOutOfRange 6 (len cols)).
Proof.
  intros H. unfold parseRow. cbv zeta.
  rewrite <- len_trimAll in H |- *. unfold index at 1.
  destruct (nth_error (trimAll cols) 6) eqn:E; [|reflexivity].
  assert (nth_error (trimAll cols) 6 <> None) as Hn by congruence.
  apply nth_error_Some in Hn. unfold len in H. lia.
Qed.

Lemma parseRow_long (cols : list gostring) :
  7 <= len cols -> exists alb, parseRow cols = inr alb.
Proof.
  intros H. unfold parseRow. cbv zeta. rewrite <- len_trimAll in H.
  destruct (index_in_range (trimAll cols) 6 ltac:(simpl; lia)) as [c6 ->].
  destruct (index_in_range (trimAll cols) 0 ltac:(simpl; lia)) as [c0 ->].
  destruct (index_in_range (trimAll cols) 5 ltac:(simpl; lia)) as [c5 ->].
  destruct (index_in_range (trimAll cols) 1 ltac:(simpl; lia)) as [c1 ->].
  destruct (index_in_range (trimAll cols) 2 ltac:(simpl; lia)) as [c2 ->].
  cbn [bindP]. destruct (Atoi c6). eauto.
Qed.

Lemma parseDataRows_short (before after : list (list gostring))
    (short : list gostring) :
  Forall (fun cols => 7 <= len cols) before ->
  len short < 7 ->
  forall out,
    parseDataRows (before ++ short :: after) out
    = inl (indexOutOfRange 6 (len short)).
Proof.
  intros Hb Hs. induction Hb as [|cols before Hc Hb IH]; intros out; simpl.
  - now rewrite (parseRow_short short Hs).
  - destruct (parseRow_long cols Hc) as [alb ->]. simpl. apply IH.
Qed.

Lemma parseDataRows_long (rows : list (list gostring)) :
  Forall (fun cols => 7 <= len cols) rows ->
  forall out, exists albums, parseDataRows rows out = inr albums.
Proof.
  induction 1 as [|cols rows Hc Hr IH]; intros out; simpl; [eauto|].
  destruct (parseRow_long cols Hc) as [alb ->]. simpl. apply IH.
Qed.

(** The parser panics on the first data row of fewer than seven columns
    under a header of at least twelve. *)
Lemma parseRymCSV_panics (ReadAll : list byte -> error + list (list gostring))
    (data : list byte) (hdr short : list gostring)
    (before after : list (list gostring)) :
  ReadAll (stripBOM data) = inr (hdr :: before ++ short :: after) ->
  12 <= len hdr ->
  Forall (fun cols => 7 <= len cols) before ->
  len short < 7 ->
  parseRymCSV ReadAll (inr data) = Panic (indexOutOfRange 6 (len short)).
Proof.
  intros Hr Hh Hb Hs. unfold parseRymCSV. rewrite Hr. unfold parseRows.
  rewrite len_trimAll. destruct (Z.ltb_spec (len hdr) 12); [lia|].
  now rewrite (parseDataRows_short before after short Hb Hs).
Qed.

(** It returns records or an error when every data row has seven columns
    or more. *)
Lemma parseRows_total (rows : list (list gostring)) :
  Forall (fun cols => 7 <= len cols) (tl rows) ->
  (exists albums, parseRows rows = Ok albums)
  \/ (exists e, parseRows rows = Error e).
Proof.
  intros H. destruct rows as [|hdr rows]; [right; eexists; reflexivity|].
  unfold parseRows. destruct (len (trimAll hdr) <? 12); [right; eauto|].
  destruct (parseDataRows_long rows H []) as [albums ->]. left. eauto.
Qed.

(** C5. A data row of three columns under a valid header makes the parser
    panic with an index out of range at [cols[6]]; it returns neither
    records nor an error. *)
Theorem parseRymCSV_short_row_panics :
  parseRows [exportHeader; shortRow] = Panic (indexOutOfRange 6 3)
  /\ parseRows [exportHeader; fullRow; shortRow] = Panic (indexOutOfRange 6 3)
  /\ parseRows [exportHeader; fullRow]
     = Ok [{| RYMAlbumID := str "1"; ID := []; Name := str "Abbey Road";
              AlbumArtist := str "The Beatles"; ProductionYear := 1969;
              Overview := []; PrimaryImageTag := [] |}].
Proof. repeat split. Qed.

End Parser.

(** * Further properties *)

(** ** The fetcher, against any source *)

Section FetcherAnySource.
Variables (w : World) (c : Client).

(** How an iteration can end, read off [loopBody]. *)
Lemma loopBody_cases (n : nat) (start : Z) (all : list Album) :
  (exists e, newRequest w (buildRequest c start) = Some e
             /\ loopBody w c n start all = ([], Return [] (Some e)))
  \/ (newRequest w (buildRequest c start) = None
      /\ ((exists e, pageFailure (Do w n (buildRequest c start)) = Some e
                     /\ loopBody w c n start all
                        = ([buildRequest c start], Return [] (Some e)))
          \/ (exists page,
                 Do w n (buildRequest c start)
                 = inr {| StatusCode := StatusOK; Body := inr page |}
                 /\ loopBody w c n start all
                    = ([buildRequest c start],
                       if exits (start + len (Items page)) page
                       then Break (start + len (Items page)) (all ++ Items page)
                       else Continue (start + len (Items page))
                              (all ++ Items page))))).
Proof.
  destruct (newRequest w (buildRequest c start)) as [e|] eqn:Hreq.
  - left. exists e. split; [reflexivity|]. unfold loopBody. now rewrite Hreq.
  - right. split; [reflexivity|].
    destruct (pageFailure (Do w n (buildRequest c start))) as [e|] eqn:Hf.
    + left. exists e. split; [reflexivity|]. now apply loopBody_failure.
    + right. destruct (Do w n (buildRequest c start)) as [e|[code body]] eqn:Hdo;
        [discriminate|]. simpl in Hf.
      destruct (Z.eqb_spec code StatusOK) as [->|]; [|discriminate].
      destruct body as [e|page]; [discriminate|].
      exists page. split; [reflexivity|]. now apply loopBody_page.
Qed.

Lemma fetchLoop_sound (fuel : nat) :
  forall (n : nat) (start : Z) (all : list Album) (f : Fetch),
    fetchLoop fuel w c n start all = Some f ->
    failure f = None ->
    exists pages final,
      served w c n start (pages ++ [final])
      /\ noneExits start pages
      /\ exits (start + received (pages ++ [final])) final = true
      /\ requests f = map (buildRequest c) (startIndices start (pages ++ [final]))
      /\ albums f = all ++ concat (map Items (pages ++ [final])).
Proof.
  induction fuel as [|fuel IH]; intros n start all f; [discriminate|].
  cbn [fetchLoop].
  destruct (loopBody_cases n start all)
    as [(e & _ & ->)|(Hreq & [(e & _ & ->)|(page & Hdo & ->)])].
  - intros H Hf. injection H as <-. discriminate.
  - intros H Hf. injection H as <-. discriminate.
  - destruct (exits (start + len (Items page)) page) eqn:Hex.
    + intros H _. injection H as <-. exists [], page. simpl.
      unfold received. simpl. rewrite !app_nil_r.
      repeat split; auto.
    + destruct (fetchLoop fuel w c _ _ _) as [f'|] eqn:E; [|discriminate].
      intros H Hf. injection H as <-. simpl in Hf.
      destruct (IH _ _ _ _ E Hf) as (pages & final & Hs & Hn & Hx & Hr & Ha).
      exists (page :: pages), final. simpl length in Hs.
      rewrite Nat.add_1_r in Hs. cbn [app served noneExits map concat startIndices].
      rewrite received_cons, Z.add_assoc, Hr, Ha, <- app_assoc.
      repeat split; auto.
Qed.

(** X1. A fetch that succeeds returns what it was served and nothing else:
    the source answered each request with a page, status 200, the offsets
    asked for are the running counts of items from 0, no page before the last
    met the exit test, the last did, and the albums returned are the items
    of these pages, in order. *)
Theorem GetAllAlbums_success_sound (fuel : nat) (f : Fetch) :
  GetAllAlbums fuel w c = Some f ->
  failure f = None ->
  urlParse w (BaseURL c) = None
  /\ exists pages final,
       served w c 0 0 (pages ++ [final])
       /\ noneExits 0 pages
       /\ exits (received (pages ++ [final])) final = true
       /\ requests f = map (buildRequest c) (startIndices 0 (pages ++ [final]))
       /\ albums f = concat (map Items (pages ++ [final])).
Proof.
  unfold GetAllAlbums. destruct (urlParse w (BaseURL c)) as [e|].
  - intros H Hf. injection H as <-. discriminate.
  - intros H Hf. split; [reflexivity|].
    destruct (fetchLoop_sound _ _ _ _ _ H Hf) as (pages & final & H1 & H2 & H3 & H4 & H5).
    exists pages, final. repeat split; auto.
Qed.

(** More iterations do not change a fetch that has ended. *)
Lemma fetchLoop_more_fuel (fuel : nat) :
  forall (k n : nat) (start : Z) (all : list Album) (f : Fetch),
    fetchLoop fuel w c n start all = Some f ->
    fetchLoop (fuel + k) w c n start all = Some f.
Proof.
  induction fuel as [|fuel IH]; intros k n start all f; [discriminate|].
  cbn [fetchLoop Nat.add]. destruct (loopBody w c n start all) as [sent it].
  destruct it as [items err|si all'|si all']; auto.
  destruct (fetchLoop fuel w c _ si all') as [f'|] eqn:E; [|discriminate].
  now rewrite (IH k _ _ _ _ E).
Qed.

Lemma fetchLoop_requests_bound (fuel : nat) :
  forall (n : nat) (start : Z) (all : list Album) (f : Fetch),
    fetchLoop fuel w c n start all = Some f ->
    (length (requests f) <= fuel)%nat.
Proof.
  induction fuel as [|fuel IH]; intros n start all f; [discriminate|].
  cbn [fetchLoop].
  destruct (loopBody_cases n start all)
    as [(e & _ & ->)|(Hreq & [(e & _ & ->)|(page & Hdo & ->)])];
    try (intros H; injection H as <-; simpl; lia).
  destruct (exits _ page); [intros H; injection H as <-; simpl; lia|].
  destruct (fetchLoop fuel w c _ _ _) as [f'|] eqn:E; [|discriminate].
  intros H. injection H as <-. simpl. apply IH in E. lia.
Qed.

Section BoundedTotal.
Variable T : Z.
Hypothesis total_bounded :
  forall n req resp page,
    Do w n req = inr resp -> Body resp = inr page -> TotalRecordCount page <= T.

Lemma fetchLoop_ends (fuel : nat) :
  forall (n : nat) (start : Z) (all : list Album),
    (Z.to_nat (T - start) < fuel)%nat ->
    fetchLoop fuel w c n start all <> None.
Proof.
  induction fuel as [|fuel IH]; intros n start all Hfuel; [lia|].
  cbn [fetchLoop].
  destruct (loopBody_cases n start all)
    as [(e & _ & ->)|(Hreq & [(e & _ & ->)|(page & Hdo & ->)])];
    try discriminate.
  destruct (exits (start + len (Items page)) page) eqn:Hex; [discriminate|].
  pose proof (total_bounded n _ _ page Hdo eq_refl) as HT.
  unfold exits in Hex. apply orb_false_elim in Hex as [H1 H2].
  rewrite Z.geb_leb in H1. apply Z.leb_gt in H1. apply Z.eqb_neq in H2.
  assert (0 <= len (Items page)) by (unfold len; lia).
  specialize (IH (n + length [buildRequest c start])%nat
                 (start + len (Items page)) (all ++ Items page) ltac:(lia)).
  destruct (fetchLoop fuel w c _ _ _); [discriminate|congruence].
Qed.

(** X2. Against a source that never reports a total above [T], the fetch
    ends: [T + 1] iterations are enough, whatever else the source does, and
    no more than [T + 1] requests are sent. *)
Theorem GetAllAlbums_ends_within_total (fuel : nat) :
  (Z.to_nat T < fuel)%nat ->
  exists f, GetAllAlbums fuel w c = Some f
            /\ (length (requests f) <= S (Z.to_nat T))%nat.
Proof.
  intros Hfuel. unfold GetAllAlbums.
  destruct (urlParse w (BaseURL c)) as [e|];
    [eexists; split; [reflexivity|simpl; lia]|].
  destruct (fetchLoop (S (Z.to_nat T)) w c 0 0 []) as [f|] eqn:E.
  - exists f. split; [|exact (fetchLoop_requests_bound _ _ _ _ _ E)].
    replace fuel with (S (Z.to_nat T) + (fuel - S (Z.to_nat T)))%nat by lia.
    now apply fetchLoop_more_fuel.
  - exfalso. apply (fetchLoop_ends (S (Z.to_nat T)) 0%nat 0 []); [|exact E].
    rewrite Z.sub_0_r. lia.
Qed.

End BoundedTotal.

Lemma fetchLoop_never_ends (fuel : nat) :
  (forall n start,
      newRequest w (buildRequest c start) = None
      /\ exists page,
           Do w n (buildRequest c start)
           = inr {| StatusCode := StatusOK; Body := inr page |}
           /\ exits (start + len (Items page)) page = false) ->
  forall (n : nat) (start : Z) (all : list Album),
    fetchLoop fuel w c n start all = None.
Proof.
  intros H. induction fuel as [|fuel IH]; intros n start all; [reflexivity|].
  cbn [fetchLoop]. destruct (H n start) as (Hreq & page & Hdo & Hex).
  rewrite (loopBody_page w c n start all page Hreq Hdo), Hex. now rewrite IH.
Qed.

(** X3. The empty-page exit does not bound the loop: against a source that
    answers every request with a page that is not empty and reports a total
    above the items received, no number of iterations ends the fetch. *)
Theorem GetAllAlbums_never_ends :
  urlParse w (BaseURL c) = None ->
  (forall n start,
      newRequest w (buildRequest c start) = None
      /\ exists page,
           Do w n (buildRequest c start)
           = inr {| StatusCode := StatusOK; Body := inr page |}
           /\ exits (start + len (Items page)) page = false) ->
  forall fuel, GetAllAlbums fuel w c = None.
Proof.
  intros Hurl H fuel. unfold GetAllAlbums. rewrite Hurl.
  now apply fetchLoop_never_ends.
Qed.

End FetcherAnySource.

Lemma GetAllAlbums_success_sound_witness :
  urlParse twoPages (BaseURL jellyfin) = None
  /\ exists pages final,
       served twoPages jellyfin 0 0 (pages ++ [final])
       /\ noneExits 0 pages
       /\ exits (received (pages ++ [final])) final = true
       /\ requests {| requests := map (buildRequest jellyfin) [0; 200];
                      albums := Items firstPage ++ Items secondPage;
                      failure := None |}
          = map (buildRequest jellyfin) (startIndices 0 (pages ++ [final]))
       /\ albums {| requests := map (buildRequest jellyfin) [0; 200];
                    albums := Items firstPage ++ Items secondPage;
                    failure := None |}
          = concat (map Items (pages ++ [final])).
Proof.
  apply (GetAllAlbums_success_sound twoPages jellyfin 2); reflexivity.
Defined.

Lemma GetAllAlbums_ends_within_total_witness :
  exists f, GetAllAlbums 251 twoPages jellyfin = Some f
            /\ (length (requests f) <= S (Z.to_nat 250))%nat.
Proof.
  apply (GetAllAlbums_ends_within_total twoPages jellyfin 250).
  - intros n req resp page Hdo Hbody. simpl in Hdo.
    destruct (StartIndex req =? 0); injection Hdo as <-;
      simpl in Hbody; injection Hbody as <-; simpl; lia.
  - simpl. lia.
Defined.

Lemma GetAllAlbums_never_ends_witness :
  GetAllAlbums 1000 endless jellyfin = None.
Proof.
  apply (GetAllAlbums_never_ends endless jellyfin).
  - reflexivity.
  - intros n start. split; [reflexivity|].
    eexists. split; [reflexivity|]. unfold exits. simpl.
    apply orb_false_intro; [|reflexivity].
    rewrite Z.geb_leb. apply Z.leb_gt. unfold len. simpl. lia.
Defined.

(** ** The shape of [normalize]'s result *)

Section NormalizeShape.
Context {U : UnicodeTables}.

Lemma trimLeft_fixed (t : gostring) : headNonSpace t -> trimLeft t = t.
Proof. destruct t as [|x t]; [reflexivity|]. simpl. now intros ->. Qed.

Lemma TrimSpace_fixed (t : gostring) :
  headNonSpace t -> headNonSpace (rev t) -> TrimSpace t = t.
Proof.
  intros H1 H2. unfold TrimSpace.
  now rewrite (trimLeft_fixed t H1), (trimLeft_fixed (rev t) H2), rev_involutive.
Qed.

Lemma headNonSpace_app (u v : gostring) :
  u <> [] -> headNonSpace u -> headNonSpace (u ++ v).
Proof. destruct u; [congruence|auto]. Qed.

Lemma field_head (w : gostring) : isField w -> headNonSpace w.
Proof.
  intros [Hn Hs]. destruct w as [|x w]; [exact I|]. apply Hs. now left.
Qed.

Lemma field_rev (w : gostring) : isField w -> isField (rev w).
Proof.
  intros [Hn Hs]. split.
  - intros E. apply Hn. now rewrite <- (rev_involutive w), E.
  - intros r Hr. apply Hs. now apply in_rev.
Qed.

Lemma Join_cons2 (w w' : gostring) (ws : list gostring) (sep : gostring) :
  Join (w :: w' :: ws) sep = w ++ sep ++ Join (w' :: ws) sep.
Proof. reflexivity. Qed.

Lemma Join_fields_nonempty (w : gostring) (ws : list gostring) (sep : gostring) :
  isField w -> Join (w :: ws) sep <> [].
Proof.
  intros [Hn _]. destruct ws; simpl; [exact Hn|].
  destruct w; [congruence|discriminate].
Qed.

Lemma Join_fields_head (ws : list gostring) (sep : gostring) :
  Forall isField ws -> headNonSpace (Join ws sep).
Proof.
  intros H. destruct H as [|w ws Hw Hws]; [exact I|].
  destruct ws as [|w' ws]; [now apply field_head|].
  rewrite Join_cons2. apply headNonSpace_app; [apply Hw|now apply field_head].
Qed.

Lemma Join_fields_last (ws : list gostring) (sep : gostring) :
  Forall isField ws -> headNonSpace (rev (Join ws sep)).
Proof.
  induction 1 as [|w ws Hw Hws IH]; [exact I|].
  destruct ws as [|w' ws]; [apply field_head, field_rev, Hw|].
  rewrite Join_cons2, !rev_app_distr, <- app_assoc.
  apply headNonSpace_app; [|exact IH].
  intros E. apply (Join_fields_nonempty w' ws sep); [now inversion Hws|].
  now rewrite <- (rev_involutive (Join (w' :: ws) sep)), E.
Qed.

Lemma doubleSpace_field (w t : gostring) :
  isField w -> doubleSpace (w ++ t) = doubleSpace t.
Proof.
  intros [Hn Hs]. induction w as [|a w IH]; [congruence|].
  destruct w as [|b w].
  - simpl. destruct t as [|x t]; [reflexivity|].
    now rewrite (Hs a (or_introl eq_refl)).
  - change (doubleSpace ((a :: b :: w) ++ t))
      with ((IsSpace a && IsSpace b) || doubleSpace ((b :: w) ++ t)).
    rewrite (Hs a (or_introl eq_refl)). simpl orb.
    apply IH; [discriminate|]. intros r Hr. apply Hs. now right.
Qed.

Lemma doubleSpace_Join (ws : list gostring) :
  Forall isField ws -> doubleSpace (Join ws (str " ")) = false.
Proof.
  induction 1 as [|w ws Hw Hws IH]; [reflexivity|].
  destruct ws as [|w' ws].
  - simpl. rewrite <- (app_nil_r w). now apply doubleSpace_field.
  - rewrite Join_cons2.
    pose proof (Join_fields_head (w' :: ws) (str " ") Hws) as Hh.
    rewrite doubleSpace_field by exact Hw.
    change (str " " ++ Join (w' :: ws) (str " "))
      with (0x20 :: Join (w' :: ws) (str " ")).
    destruct (Join (w' :: ws) (str " ")) as [|x t] eqn:E; [reflexivity|].
    simpl in Hh.
    change (doubleSpace (0x20 :: x :: t))
      with ((IsSpace 0x20 && IsSpace x) || doubleSpace (x :: t)).
    now rewrite Hh, andb_false_r.
Qed.

(** X4. The text [normalize] returns, for any tables: each rune is the
    space U+0020 or a letter or number of the decomposed lower-cased input
    that is neither a mark nor white space (so no punctuation, no
    diacritic, no tab or no-break space is left); it neither begins nor
    ends with white space ([strings.TrimSpace] leaves it as it is) and has
    no two spaces in a row. *)
Theorem normalize_shape (s : gostring) :
  (forall r, In r (normalize s) ->
     r = 0x20
     \/ (In r (NFD (ToLower s)) /\ Mn r = false
         /\ IsLetter r || IsNumber r = true /\ IsSpace r = false))
  /\ TrimSpace (normalize s) = normalize s
  /\ doubleSpace (normalize s) = false.
Proof.
  pose proof (fieldsFrom_fields (filter kept (NFD (ToLower s))) None
                ltac:(discriminate)) as Hf.
  fold (Fields (filter kept (NFD (ToLower s)))) in Hf.
  split; [|split].
  - intros r Hr. rewrite normalize_eq in Hr.
    apply Join_In in Hr as [[<-|[]]|(w & Hw & Hr)]; [now left|right].
    rewrite Forall_forall in Hf. destruct (Hf w Hw) as [_ Hs].
    destruct (fieldsFrom_In _ None w r Hw Hr) as [Hin|(w' & E & _)]; [|discriminate].
    apply filter_In in Hin as [Hin Hk].
    unfold kept in Hk. rewrite (Hs r Hr), orb_false_r in Hk.
    apply andb_prop in Hk as [Hm Hl].
    repeat split; auto. now destruct (Mn r).
  - rewrite normalize_eq. apply TrimSpace_fixed.
    + now apply Join_fields_head.
    + now apply Join_fields_last.
  - rewrite normalize_eq. now apply doubleSpace_Join.
Qed.

(** X5. [renderForm] lower-cases each field before [normalize] does so
    again; where [unicode.ToLower] is idempotent the first call changes
    nothing: the strings compared are [normalize(Name)] and
    [normalize(AlbumArtist)]. *)
Theorem renderForm_lowercases_twice (a : Album) :
  (forall r, toLower (toLower r) = toLower r) ->
  normTitle a = normalize (Name a)
  /\ normArtist a = normalize (AlbumArtist a).
Proof.
  intros H. unfold normTitle, normArtist.
  split; apply normalize_ToLower; exact H.
Qed.

End NormalizeShape.

Lemma renderForm_lowercases_twice_witness :
  @normTitle latin1.tables abbeyRoad = @normalize latin1.tables (Name abbeyRoad)
  /\ @normArtist latin1.tables abbeyRoad
     = @normalize latin1.tables (AlbumArtist abbeyRoad).
Proof.
  apply (@renderForm_lowercases_twice latin1.tables abbeyRoad).
  intros r. apply Latin1Facts.toLower_range.
Defined.

(** ** Reconciliation, further *)

Section ReconcileMore.
Context {U : UnicodeTables}.

Lemma existsb_same_elements {A : Type} (p : A -> bool) (r r' : list A) :
  (forall x, In x r <-> In x r') -> existsb p r = existsb p r'.
Proof.
  intros H. destruct (existsb p r) eqn:E, (existsb p r') eqn:E'; try reflexivity.
  - apply existsb_exists in E as (x & Hx & Hp).
    assert (existsb p r' = true) by (apply existsb_exists; exists x; split; [now apply H|exact Hp]).
    congruence.
  - apply existsb_exists in E' as (x & Hx & Hp).
    assert (existsb p r = true) by (apply existsb_exists; exists x; split; [now apply H|exact Hp]).
    congruence.
Qed.

(** X6. The result depends on the reference catalog only as a set: two
    reference catalogs with the same records, in any order and with any
    repetitions, leave the same unique records, although the scan stops at
    the first match. *)
Theorem reconcile_reference_as_set (local r r' : list Album) :
  (forall x, In x r <-> In x r') ->
  reconcile local r = reconcile local r'.
Proof.
  intros H. rewrite !reconcile_filter. apply filter_ext.
  intros loc. f_equal. now apply existsb_same_elements.
Qed.

(** X7. Each local record is judged by itself: reconciling a catalog cut
    in two gives the two results one after the other, an empty local catalog
    gives none, and an empty reference catalog returns the local catalog
    as it is. *)
Theorem reconcile_pointwise (l1 l2 reference : list Album) :
  reconcile (l1 ++ l2) reference = reconcile l1 reference ++ reconcile l2 reference
  /\ reconcile [] reference = []
  /\ reconcile (l1 ++ l2) [] = l1 ++ l2.
Proof.
  rewrite !reconcile_filter. split; [apply filter_app|].
  split; [reflexivity|]. apply filter_all. reflexivity.
Qed.

(** A non-empty string of [int] length scores 1 against itself. *)
Lemma similarity_self (a : gostring) :
  a <> [] -> len a < 2 ^ 63 -> similarity a a = 1%float.
Proof.
  intros Ha Hlen. rewrite (similarity_formula a a Ha Ha).
  rewrite <- LevenshteinFacts.DistanceForStrings_weightedDistance.
  rewrite LevenshteinFacts.DefaultOptions_diag, Z.max_id.
  change (float64 0) with 0%float.
  rewrite Float64Facts.zero_div_float64 by (pose proof (len_pos a Ha); lia).
  reflexivity.
Qed.

(** X8. A local record is dropped as soon as some reference record has
    the same normalized title and the same normalized contributor, both
    non-empty: an exact match after normalization is always accepted. *)
Theorem matching_record_is_duplicate (local reference : list Album)
    (loc ref : Album) :
  In ref reference ->
  normTitle ref = normTitle loc ->
  normArtist ref = normArtist loc ->
  normTitle loc <> [] -> len (normTitle loc) < 2 ^ 63 ->
  normArtist loc <> [] -> len (normArtist loc) < 2 ^ 63 ->
  ~ In loc (reconcile local reference).
Proof.
  intros Hin Et Ea Ht Hlt Ha Hla H. rewrite reconcile_filter in H.
  apply filter_In in H as [_ H]. apply negb_true_iff in H.
  assert (Hex : existsb (acceptedMatch loc) reference = true); [|congruence].
  apply existsb_exists. exists ref. split; [exact Hin|].
  unfold acceptedMatch. rewrite Et, Ea.
  now rewrite (similarity_self _ Ht Hlt), (similarity_self _ Ha Hla).
Qed.

End ReconcileMore.

Lemma reconcile_reference_as_set_witness :
  @reconcile latin1.tables [abbeyRoad; letItBleed] [abbeyRoad; untitled]
  = @reconcile latin1.tables [abbeyRoad; letItBleed]
      [untitled; abbeyRoad; untitled].
Proof.
  apply (@reconcile_reference_as_set latin1.tables).
  intros x. simpl. tauto.
Defined.

Lemma matching_record_is_duplicate_witness :
  ~ In (album (str "ABBEY ROAD!") (str "the  beatles"))
       (@reconcile latin1.tables
          [letItBleed; album (str "ABBEY ROAD!") (str "the  beatles")]
          [untitled; abbeyRoad]).
Proof.
  apply (@matching_record_is_duplicate latin1.tables _ _ _ abbeyRoad).
  - simpl. auto.
  - reflexivity.
  - reflexivity.
  - discriminate.
  - reflexivity.
  - discriminate.
  - reflexivity.
Defined.

(** ** The handler *)

Section HandlerFacts.
Context {U : UnicodeTables}.
Variable ReadAll : list byte -> error + list (list gostring).
Variable ExecuteTemplate : Page -> option error.

Lemma handle_delivered (r : HTTPRequest) (albumList : list Album) :
  fst (handle ReadAll ExecuteTemplate r albumList)
  = reconcile albumList (delivered ReadAll r).
Proof.
  unfold handle, delivered. destruct (reqMethod r).
  - now rewrite renderForm_fst.
  - destruct (csvfile r) as [[err|data]|].
    + simpl. now rewrite reconcile_nil.
    + destruct (parseRymCSV ReadAll (inr data)); rewrite ?renderForm_fst; simpl;
        now rewrite ?reconcile_nil.
    + destruct (parseRymCSV ReadAll (inr (csvtext r))); rewrite ?renderForm_fst;
        simpl; now rewrite ?reconcile_nil.
  - simpl. now rewrite reconcile_nil.
Qed.

Lemma serve_delivered (rs : list HTTPRequest) :
  forall albumList,
    serve ReadAll ExecuteTemplate rs albumList
    = reconcile albumList (concat (map (delivered ReadAll) rs)).
Proof.
  unfold serve. induction rs as [|r rs IH]; intros albumList; simpl.
  - now rewrite reconcile_nil.
  - now rewrite IH, handle_delivered, reconcile_twice.
Qed.

(** X9. [albumList] over the life of the server.  After any requests it
    is the first catalog reconciled against everything the POSTs delivered
    so far; a GET, another method, an upload that cannot be read, a CSV that
    does not parse and a parser panic deliver nothing and leave it as it is;
    and a record once dropped is never shown again, whatever is requested
    later.  None of it depends on what the template returns. *)
Theorem serve_albumList (rs rs' : list HTTPRequest) (albumList : list Album) :
  serve ReadAll ExecuteTemplate rs albumList
  = reconcile albumList (concat (map (delivered ReadAll) rs))
  /\ (forall r, delivered ReadAll r = [] ->
        fst (handle ReadAll ExecuteTemplate r albumList) = albumList)
  /\ (forall x, In x (serve ReadAll ExecuteTemplate (rs ++ rs') albumList) ->
        In x (serve ReadAll ExecuteTemplate rs albumList) /\ In x albumList).
Proof.
  split; [apply serve_delivered|]. split.
  - intros r Hr. now rewrite handle_delivered, Hr, reconcile_nil.
  - intros x Hx. unfold serve in Hx. rewrite fold_left_app in Hx.
    fold (serve ReadAll ExecuteTemplate rs albumList) in Hx.
    fold (serve ReadAll ExecuteTemplate rs'
            (serve ReadAll ExecuteTemplate rs albumList)) in Hx.
    rewrite (serve_delivered rs') in Hx. apply reconcile_In in Hx.
    split; [exact Hx|]. rewrite serve_delivered in Hx.
    now apply reconcile_In in Hx.
Qed.

(** X10. A POST whose text does not parse is not answered with status 400:
    [albumList] stays as it was and the template is executed on the catalog,
    no JSON, and the message [Parse error: ] followed by the error's text.
    The reply is the page when the template executes, and status 500 with
    the template's error text when it does not. *)
Theorem handle_parse_error (r : HTTPRequest) (albumList : list Album) (e : error) :
  reqMethod r = POST ->
  csvfile r = None ->
  parseRymCSV ReadAll (inr (csvtext r)) = Error e ->
  let data :=
    {| pageAlbums := albumList; pageJSON := [];
       pageErr := str "Parse error: " ++ errorText e |} in
  handle ReadAll ExecuteTemplate r albumList
  = (albumList,
     match ExecuteTemplate data with
     | None => replyPage data
     | Some err => replyError (errorText err) StatusInternalServerError
     end).
Proof.
  intros Hm Hf Hp. unfold handle. rewrite Hm, Hf, Hp.
  unfold renderForm. cbv zeta. rewrite reconcile_nil.
  change (0 <? len (@nil Album)) with false. cbv iota.
  now destruct (ExecuteTemplate _).
Qed.

End HandlerFacts.

Lemma handle_parse_error_witness :
  @handle latin1.tables (fun _ => inr []) executes
    {| reqMethod := POST; csvfile := None; csvtext := [] |} [abbeyRoad]
  = ([abbeyRoad],
     replyPage {| pageAlbums := [abbeyRoad]; pageJSON := [];
                  pageErr := str "Parse error: " ++ errorText errEmptyCSV |})
  /\ @handle latin1.tables (fun _ => inr []) fails
       {| reqMethod := POST; csvfile := None; csvtext := [] |} [abbeyRoad]
     = ([abbeyRoad],
        replyError (errorText templateError) StatusInternalServerError).
Proof.
  split.
  - apply (@handle_parse_error latin1.tables (fun _ => inr []) executes
             {| reqMethod := POST; csvfile := None; csvtext := [] |}
             [abbeyRoad] errEmptyCSV); reflexivity.
  - apply (@handle_parse_error latin1.tables (fun _ => inr []) fails
             {| reqMethod := POST; csvfile := None; csvtext := [] |}
             [abbeyRoad] errEmptyCSV); reflexivity.
Defined.

Example handle_parse_error_text :
  str "Parse error: " ++ errorText (errHeader 3 12)
  = str "Parse error: header has 3 columns, expected at least 12".
Proof. reflexivity. Qed.

(** ** [strings.TrimSpace] and [trimAll] *)

Section Trim.

Lemma trimLeft_head (s : gostring) : headNonSpace (trimLeft s).
Proof.
  induction s as [|x s IH]; [exact I|]. simpl.
  destruct (IsSpace x) eqn:E; [exact IH|exact E].
Qed.

Lemma trimLeft_split (s : gostring) :
  exists sp, s = sp ++ trimLeft s /\ Forall (fun r => IsSpace r = true) sp.
Proof.
  induction s as [|x s (sp & E & Hsp)]; [exists []; auto|]. simpl.
  destruct (IsSpace x) eqn:Ex.
  - exists (x :: sp). split; [simpl; now f_equal|now constructor].
  - exists []. auto.
Qed.

Lemma TrimSpace_split (s : gostring) :
  exists l r,
    s = l ++ TrimSpace s ++ r
    /\ Forall (fun x => IsSpace x = true) l
    /\ Forall (fun x => IsSpace x = true) r.
Proof.
  destruct (trimLeft_split s) as (l & El & Hl).
  destruct (trimLeft_split (rev (trimLeft s))) as (sp & Er & Hr).
  exists l, (rev sp). unfold TrimSpace. split; [|split; [exact Hl|]].
  - rewrite <- rev_app_distr, <- Er, rev_involutive. exact El.
  - apply Forall_rev. exact Hr.
Qed.

Lemma TrimSpace_edges (s : gostring) :
  headNonSpace (TrimSpace s) /\ headNonSpace (rev (TrimSpace s)).
Proof.
  unfold TrimSpace. rewrite rev_involutive. split; [|apply trimLeft_head].
  pose proof (trimLeft_head s) as Hu.
  destruct (trimLeft_split (rev (trimLeft s))) as (sp & E & _).
  set (v := trimLeft (rev (trimLeft s))) in *.
  assert (Eu : trimLeft s = rev v ++ rev sp).
  { rewrite <- rev_app_distr, <- E. now rewrite rev_involutive. }
  destruct (rev v) as [|x t]; [exact I|]. rewrite Eu in Hu. exact Hu.
Qed.

Lemma TrimSpace_idempotent (s : gostring) : TrimSpace (TrimSpace s) = TrimSpace s.
Proof. destruct (TrimSpace_edges s). now apply TrimSpace_fixed. Qed.

(** X11. [trimAll] keeps the number of columns; each column it returns is
    the column it was given without the white space at its two ends, and
    nothing else is removed; trimming again changes nothing. *)
Theorem trimAll_columns (xs : list gostring) :
  length (trimAll xs) = length xs
  /\ trimAll (trimAll xs) = trimAll xs
  /\ (forall i, (i < length xs)%nat ->
        headNonSpace (nth i (trimAll xs) [])
        /\ headNonSpace (rev (nth i (trimAll xs) []))
        /\ exists l r,
             nth i xs [] = l ++ nth i (trimAll xs) [] ++ r
             /\ Forall (fun x => IsSpace x = true) l
             /\ Forall (fun x => IsSpace x = true) r).
Proof.
  unfold trimAll. split; [apply length_map|]. split.
  - rewrite map_map. apply map_ext. apply TrimSpace_idempotent.
  - intros i Hi.
    assert (E : nth i (map TrimSpace xs) [] = TrimSpace (nth i xs [])).
    { change (@nil rune) with (TrimSpace []) at 1. apply map_nth. }
    rewrite E. destruct (TrimSpace_edges (nth i xs [])) as [H1 H2].
    split; [exact H1|]. split; [exact H2|]. apply TrimSpace_split.
Qed.

End Trim.

(** ** The parser, row by row *)

Section ParserRows.

Lemma index_trimAll (cols : list gostring) (i : nat) :
  Z.of_nat i < len cols -> index (trimAll cols) i = inr (column cols i).
Proof.
  intros H. unfold index, trimAll, column.
  rewrite nth_error_map.
  destruct (nth_error cols i) as [x|] eqn:E.
  - simpl. f_equal. f_equal. symmetry. now apply nth_error_nth.
  - apply nth_error_None in E. unfold len in H. lia.
Qed.

Lemma parseRow_rowAlbum (cols : list gostring) :
  7 <= len cols -> parseRow cols = inr (rowAlbum cols).
Proof.
  intros H. unfold parseRow. cbv zeta.
  rewrite !index_trimAll by (simpl; lia). cbn [bindP].
  unfold rowAlbum. now destruct (Atoi (column cols 6)).
Qed.

Lemma parseDataRows_map (rows : list (list gostring)) :
  Forall (fun cols => 7 <= len cols) rows ->
  forall out, parseDataRows rows out = inr (out ++ map rowAlbum rows).
Proof.
  induction 1 as [|cols rows Hc Hr IH]; intros out; simpl.
  - now rewrite app_nil_r.
  - rewrite (parseRow_rowAlbum cols Hc). simpl. rewrite IH.
    now rewrite <- app_assoc.
Qed.

(** X12. Under a header of twelve columns or more, when every data row
    has at least seven columns the parser returns one album per data row,
    in order: the id is column 0, the title column 5, the contributor
    columns 1 and 2 joined by a space and trimmed, the year what
    [strconv.Atoi] makes of column 6, each column trimmed; the header's
    names are not looked at. *)
Theorem parseRows_albums (hdr : list gostring) (rows : list (list gostring)) :
  12 <= len hdr ->
  Forall (fun cols => 7 <= len cols) rows ->
  parseRows (hdr :: rows) = Ok (map rowAlbum rows).
Proof.
  intros Hh Hr. unfold parseRows. rewrite len_trimAll.
  destruct (Z.ltb_spec (len hdr) 12); [lia|].
  now rewrite (parseDataRows_map rows Hr).
Qed.

(** X13. The errors of [parseRymCSV] are these and no others: the error
    of reading the input, the error of the CSV reader, [empty CSV] when
    the reader finds no record, and the header error when the first record
    has fewer than twelve columns; the data rows play no part. *)
Theorem parseRymCSV_errors (ReadAll : list byte -> error + list (list gostring))
    (input : error + list byte) (e : error) :
  parseRymCSV ReadAll input = Error e <->
  input = inl e
  \/ exists data,
       input = inr data
       /\ (ReadAll (stripBOM data) = inl e
           \/ (ReadAll (stripBOM data) = inr [] /\ e = errEmptyCSV)
           \/ exists hdr rows,
                ReadAll (stripBOM data) = inr (hdr :: rows)
                /\ len hdr < 12 /\ e = errHeader (len hdr) 12).
Proof.
  unfold parseRymCSV. destruct input as [err|data].
  - split.
    + intros H. injection H as ->. now left.
    + intros [H|(data & H & _)]; [now injection H as ->|discriminate].
  - split.
    + intros H. right. exists data. split; [reflexivity|].
      destruct (ReadAll (stripBOM data)) as [err|[|hdr rows]].
      * injection H as ->. now left.
      * simpl in H. injection H as <-. right. left. auto.
      * simpl in H. rewrite len_trimAll in H.
        destruct (Z.ltb_spec (len hdr) 12) as [Hlt|Hge].
        -- injection H as <-. right. right. exists hdr, rows. auto.
        -- destruct (parseDataRows rows []); discriminate.
    + intros [H|(d & Hd & H)]; [discriminate|]. injection Hd as <-.
      destruct H as [H|[(H & ->)|(hdr & rows & H & Hlt & ->)]];
        rewrite H; simpl; try reflexivity.
      rewrite len_trimAll. destruct (Z.ltb_spec (len hdr) 12); [reflexivity|lia].
Qed.

Lemma column_edges (cols : list gostring) (i : nat) :
  headNonSpace (column cols i) /\ headNonSpace (rev (column cols i)).
Proof. apply TrimSpace_edges. Qed.

(** X14. When the first-name column is blank the contributor is the
    last-name column alone, and when the last-name column is blank it is the
    first-name column alone: the joining space does not stay. *)
Theorem parseRow_blank_name (cols : list gostring) (alb : Album) :
  parseRow cols = inr alb ->
  (column cols 1 = [] -> AlbumArtist alb = column cols 2)
  /\ (column cols 2 = [] -> AlbumArtist alb = column cols 1).
Proof.
  intros H.
  assert (Hlen : 7 <= len cols).
  { destruct (Z.lt_ge_cases (len cols) 7) as [Hlt|]; [|assumption].
    rewrite (parseRow_short cols Hlt) in H. discriminate. }
  rewrite (parseRow_rowAlbum cols Hlen) in H. injection H as <-.
  unfold rowAlbum. cbn [AlbumArtist Join].
  destruct (column_edges cols 1) as [H1 H1'].
  destruct (column_edges cols 2) as [H2 H2'].
  split; intros E; rewrite E in *.
  - change ([] ++ str " " ++ column cols 2) with (0x20 :: column cols 2).
    unfold TrimSpace. cbn [trimLeft]. change (IsSpace 32) with true. cbv iota.
    now rewrite (trimLeft_fixed _ H2), (trimLeft_fixed _ H2'), rev_involutive.
  - rewrite app_nil_r. unfold TrimSpace.
    destruct (column cols 1) as [|x t] eqn:Ec; [reflexivity|].
    rewrite (trimLeft_fixed ((x :: t) ++ str " ") H1).
    rewrite rev_app_distr. cbn [rev str app]. simpl app.
    change (trimLeft (32 :: rev t ++ [x])) with (trimLeft (rev (x :: t))).
    now rewrite (trimLeft_fixed _ H1'), rev_involutive.
Qed.

End ParserRows.

Lemma parseRows_albums_witness :
  parseRows (exportHeader :: [fullRow; fullRow]) = Ok (map rowAlbum [fullRow; fullRow]).
Proof.
  apply parseRows_albums.
  - unfold len. simpl. lia.
  - repeat constructor; unfold len; simpl; lia.
Defined.

Lemma parseRow_blank_name_witness :
  (column [str "7"; str "  "; str " Madonna "; []; []; str "Music"; str "2000"] 1 = []
   -> AlbumArtist (rowAlbum [str "7"; str "  "; str " Madonna "; []; [];
                             str "Music"; str "2000"])
      = column [str "7"; str "  "; str " Madonna "; []; []; str "Music"; str "2000"] 2)
  /\ (column [str "7"; str "  "; str " Madonna "; []; []; str "Music"; str "2000"] 2 = []
      -> AlbumArtist (rowAlbum [str "7"; str "  "; str " Madonna "; []; [];
                                str "Music"; str "2000"])
         = column [str "7"; str "  "; str " Madonna "; []; []; str "Music"; str "2000"] 1).
Proof.
  apply (parseRow_blank_name
           [str "7"; str "  "; str " Madonna "; []; []; str "Music"; str "2000"]).
  reflexivity.
Defined.

Example parseRow_madonna :
  option_map AlbumArtist
    (match parseRow [str "7"; str "  "; str " Madonna "; []; []; str "Music";
                     str "2000"] with inr a => Some a | inl _ => None end)
  = Some (str "Madonna").
Proof. reflexivity. Qed.

(** ** The year column *)

Section Year.

Lemma isDigit_spec (c : rune) : isDigit c = true <-> 0x30 <= c <= 0x39.
Proof. unfold isDigit. rewrite andb_true_iff, !Z.leb_le. tauto. Qed.

Lemma decimalFrom_cons (n : Z) (c : rune) (ds : gostring) :
  decimalFrom n (c :: ds) = decimalFrom (n * 10 + (c - 0x30)) ds.
Proof. reflexivity. Qed.

Lemma decimalFrom_app (n : Z) (ds ds' : gostring) :
  decimalFrom n (ds ++ ds') = decimalFrom (decimalFrom n ds) ds'.
Proof. unfold decimalFrom. apply fold_left_app. Qed.

(** Digits never make the number smaller. *)
Lemma decimalFrom_ge (ds : gostring) :
  forall n, 0 <= n -> forallb isDigit ds = true -> n <= decimalFrom n ds.
Proof.
  induction ds as [|c ds IH]; intros n Hn H; [unfold decimalFrom; simpl; lia|].
  simpl in H. apply andb_true_iff in H as [Hc Hds]. apply isDigit_spec in Hc.
  rewrite decimalFrom_cons.
  apply Z.le_trans with (n * 10 + (c - 0x30)); [lia|]. apply IH; [lia|exact Hds].
Qed.

(** [k] digits write a number below [10 ^ k]. *)
Lemma decimalFrom_lt (ds : gostring) :
  forall n, 0 <= n -> forallb isDigit ds = true ->
    decimalFrom n ds < (n + 1) * 10 ^ len ds.
Proof.
  induction ds as [|c ds IH]; intros n Hn H.
  - unfold decimalFrom, len. simpl. lia.
  - simpl in H. apply andb_true_iff in H as [Hc Hds]. apply isDigit_spec in Hc.
    rewrite decimalFrom_cons.
    specialize (IH (n * 10 + (c - 0x30)) ltac:(lia) Hds).
    replace (len (c :: ds)) with (len ds + 1) by (unfold len; simpl length; lia).
    rewrite Z.pow_add_r by (unfold len; lia).
    assert (0 < 10 ^ len ds) by (apply Z.pow_pos_nonneg; unfold len; lia).
    nia.
Qed.

Lemma digitPrefix_digits (s : gostring) : forallb isDigit (digitPrefix s) = true.
Proof.
  induction s as [|c s IH]; [reflexivity|]. simpl.
  destruct (isDigit c) eqn:E; [simpl; now rewrite E|reflexivity].
Qed.

Lemma digitPrefix_all (s : gostring) :
  forallb isDigit s = true <-> digitPrefix s = s.
Proof.
  induction s as [|c s IH]; [simpl; tauto|]. simpl.
  destruct (isDigit c) eqn:E; simpl.
  - split; intros H.
    + f_equal. now apply IH.
    + injection H as H. now apply IH.
  - split; discriminate.
Qed.

Lemma digitPrefix_len (s : gostring) : len (digitPrefix s) <= len s.
Proof.
  unfold len. induction s as [|c s IH]; [simpl; lia|]. simpl digitPrefix.
  destruct (isDigit c); simpl length; lia.
Qed.

Lemma decimalValue_nonneg (s : gostring) : 0 <= decimalValue (digitPrefix s).
Proof. apply decimalFrom_ge; [lia|apply digitPrefix_digits]. Qed.

(** The loop of [ParseUint]: the range error comes with the first digit
    that takes the number beyond [maxUint64], before anything behind it is
    read; the syntax error with a byte that is no digit before that. *)
Lemma parseDigits_spec (s : gostring) :
  forall n, 0 <= n <= maxUint64 ->
    parseDigits s n
    = if decimalFrom n (digitPrefix s) >? maxUint64
      then (maxUint64, Some ErrRange)
      else if forallb isDigit s then (decimalFrom n s, None)
      else (0, Some ErrSyntax).
Proof.
  induction s as [|c s IH]; intros n Hn.
  - cbn [parseDigits digitPrefix forallb]. unfold decimalFrom. cbn [fold_left].
    destruct (Z.gtb_spec n maxUint64); [lia|reflexivity].
  - cbn [parseDigits digitPrefix forallb]. destruct (isDigit c) eqn:Ec.
    + pose proof (proj1 (isDigit_spec c) Ec) as Hc.
      rewrite !decimalFrom_cons. cbn [andb].
      pose proof (decimalFrom_ge (digitPrefix s) (n * 10 + (c - 0x30))
                    ltac:(lia) (digitPrefix_digits s)) as Hge.
      change (maxUint64 / 10 + 1) with 1844674407370955162.
      rewrite Z.geb_leb.
      destruct (Z.leb_spec 1844674407370955162 n) as [Hcut|Hcut].
      * destruct (Z.gtb_spec (decimalFrom (n * 10 + (c - 0x30)) (digitPrefix s))
                    maxUint64) as [|Hle]; [reflexivity|].
        exfalso. unfold maxUint64 in *. lia.
      * destruct (Z.gtb_spec (n * 10 + (c - 0x30)) maxUint64) as [Hov|Hin].
        -- destruct (Z.gtb_spec (decimalFrom (n * 10 + (c - 0x30)) (digitPrefix s))
                       maxUint64) as [|Hle]; [reflexivity|].
           exfalso. lia.
        -- apply IH. lia.
    + unfold decimalFrom at 1. cbn [fold_left andb].
      destruct (Z.gtb_spec n maxUint64); [lia|reflexivity].
Qed.

(** [Atoi] in words: no digits behind the sign give 0; digits that pass
    [maxUint64] give the bound of the sign, whatever follows them; a byte
    that is no digit gives 0; and digits alone give the signed number, or
    the bound it passes. *)
Lemma Atoi_spec (s : gostring) :
  Atoi s
  = let v := decimalValue (digitPrefix (unsigned s)) in
    match unsigned s with
    | [] => (0, false)
    | _ :: _ =>
        if v >? maxUint64 then (if negative s then MinInt else MaxInt, false)
        else if forallb isDigit (unsigned s) then
          if negb (negative s) && (v >=? 2 ^ 63) then (MaxInt, false)
          else if negative s && (v >? 2 ^ 63) then (MinInt, false)
          else (if negative s then - v else v, true)
        else (0, false)
    end.
Proof.
  assert (Hbody : forall (neg : bool) (b : rune) (body : gostring),
    (let '(i64, err) :=
       match ParseUint (b :: body) with
       | (_, Some ErrSyntax) => (0, Some ErrSyntax)
       | (un, _) =>
           let cutoff := 2 ^ 63 in
           if negb neg && (un >=? cutoff) then (cutoff - 1, Some ErrRange)
           else if neg && (un >? cutoff) then (- cutoff, Some ErrRange)
           else (if neg then - un else un, None)
       end in
     (i64, match err with None => true | Some _ => false end))
    = let v := decimalValue (digitPrefix (b :: body)) in
      if v >? maxUint64 then (if neg then MinInt else MaxInt, false)
      else if forallb isDigit (b :: body) then
        if negb neg && (v >=? 2 ^ 63) then (MaxInt, false)
        else if neg && (v >? 2 ^ 63) then (MinInt, false)
        else (if neg then - v else v, true)
      else (0, false)).
  { intros neg b body. unfold ParseUint.
    rewrite parseDigits_spec by (unfold maxUint64; lia).
    unfold decimalValue. cbv zeta.
    destruct (decimalFrom 0 (digitPrefix (b :: body)) >? maxUint64) eqn:Eov.
    - destruct neg; reflexivity.
    - destruct (forallb isDigit (b :: body)) eqn:Ed; [|reflexivity].
      rewrite (proj1 (digitPrefix_all (b :: body)) Ed).
      destruct (negb neg && (decimalFrom 0 (b :: body) >=? 2 ^ 63));
        [reflexivity|].
      destruct (neg && (decimalFrom 0 (b :: body) >? 2 ^ 63)); reflexivity. }
  destruct s as [|c s]; [reflexivity|].
  unfold Atoi, ParseInt, unsigned, negative. cbv zeta.
  destruct ((c =? 0x2B) || (c =? 0x2D)).
  - destruct s as [|b body]; [reflexivity|]. apply Hbody.
  - apply Hbody.
Qed.

Lemma digitsOf_spec (fuel : nat) :
  forall (n : Z) (acc : gostring),
    0 <= n < 10 ^ Z.of_nat (S fuel) ->
    exists ds,
      digitsOf (S fuel) n acc = ds ++ acc
      /\ (exists c ds', ds = c :: ds' /\ 0x30 <= c <= 0x39)
      /\ forallb isDigit ds = true
      /\ forall k, decimalFrom k ds = k * 10 ^ len ds + n.
Proof.
  assert (Hone : forall n : Z, 0 <= n < 10 ->
            forallb isDigit [0x30 + n] = true
            /\ forall k, decimalFrom k [0x30 + n] = k * 10 ^ len [0x30 + n] + n).
  { intros n Hn. split.
    - cbn [forallb]. rewrite andb_true_r. apply isDigit_spec. lia.
    - intros k. rewrite decimalFrom_cons. unfold decimalFrom. cbn [fold_left].
      change (len [0x30 + n]) with 1. lia. }
  induction fuel as [|fuel IH]; intros n acc Hn.
  - change (10 ^ Z.of_nat 1) with 10 in Hn. cbn [digitsOf].
    destruct (Z.ltb_spec n 10); [|lia].
    rewrite Z.mod_small by lia.
    exists [0x30 + n]. split; [reflexivity|]. split.
    + exists (0x30 + n), []. split; [reflexivity|lia].
    + apply Hone. lia.
  - remember (S fuel) as f eqn:Ef. cbn [digitsOf].
    pose proof (Z.mod_pos_bound n 10 ltac:(lia)) as Hm.
    pose proof (Z.div_mod n 10 ltac:(lia)) as Hdm.
    destruct (Z.ltb_spec n 10) as [Hlt|Hge].
    + rewrite Z.mod_small by lia.
      exists [0x30 + n]. split; [reflexivity|]. split.
      * exists (0x30 + n), []. split; [reflexivity|lia].
      * apply Hone. lia.
    + assert (Hq : 0 <= n / 10 < 10 ^ Z.of_nat f).
      { split; [apply Z.div_pos; lia|].
        apply Z.div_lt_upper_bound; [lia|].
        rewrite <- Z.pow_succ_r by lia. rewrite <- Nat2Z.inj_succ. lia. }
      subst f.
      destruct (IH (n / 10) ((0x30 + n mod 10) :: acc) Hq)
        as (ds & E & (c & ds' & -> & Hc) & Hdig & Hdec).
      exists ((c :: ds') ++ [0x30 + n mod 10]). split.
      * rewrite E. now rewrite <- app_assoc.
      * split; [exists c, (ds' ++ [0x30 + n mod 10]); split; [reflexivity|lia]|].
        destruct (Hone (n mod 10) Hm) as [Hd1 Hv1]. split.
        -- rewrite forallb_app, Hdig. exact Hd1.
        -- intros k. rewrite decimalFrom_app, Hdec, Hv1, len_app.
           change (len [0x30 + n mod 10]) with 1.
           rewrite Z.pow_add_r by (unfold len; lia). lia.
Qed.

Lemma digitsOf_decimal (n : Z) :
  0 <= n ->
  exists c ds,
    digitsOf (S (Z.to_nat (Z.log2 n))) n [] = c :: ds
    /\ 0x30 <= c <= 0x39
    /\ forallb isDigit (c :: ds) = true
    /\ decimalValue (c :: ds) = n.
Proof.
  intros Hn.
  assert (Hb : 0 <= n < 10 ^ Z.of_nat (S (Z.to_nat (Z.log2 n)))).
  { split; [exact Hn|]. rewrite Nat2Z.inj_succ, Z2Nat.id by apply Z.log2_nonneg.
    destruct (Z.eq_dec n 0) as [->|Hn0]; [reflexivity|].
    pose proof (Z.log2_spec n ltac:(lia)) as [_ Hlt].
    apply Z.lt_le_trans with (1 := Hlt).
    apply Z.pow_le_mono_l. pose proof (Z.log2_nonneg n). lia. }
  destruct (digitsOf_spec _ n [] Hb) as (ds & E & (c & ds' & -> & Hc) & Hdig & Hdec).
  exists c, ds'. rewrite app_nil_r in E. split; [exact E|]. split; [exact Hc|].
  split; [exact Hdig|]. unfold decimalValue. rewrite Hdec. lia.
Qed.

Lemma Atoi_Itoa (n : Z) : MinInt <= n <= MaxInt -> Atoi (Itoa n) = (n, true).
Proof.
  intros Hn. rewrite Atoi_spec. cbv zeta. unfold Itoa.
  destruct (Z.ltb_spec n 0) as [Hneg|Hpos].
  - destruct (digitsOf_decimal (- n) ltac:(lia)) as (c & ds & -> & Hc & Hdig & Hv).
    change (unsigned (0x2D :: c :: ds)) with (c :: ds).
    change (negative (0x2D :: c :: ds)) with true.
    rewrite (proj1 (digitPrefix_all (c :: ds)) Hdig), Hdig, Hv. cbn [negb andb].
    unfold MinInt, MaxInt, maxUint64 in *.
    destruct (Z.gtb_spec (- n) (2 ^ 64 - 1)); [lia|].
    destruct (Z.gtb_spec (- n) (2 ^ 63)); [lia|]. f_equal. lia.
  - destruct (digitsOf_decimal n Hpos) as (c & ds & -> & Hc & Hdig & Hv).
    assert (Eu : unsigned (c :: ds) = c :: ds).
    { unfold unsigned. destruct (Z.eqb_spec c 0x2B); [lia|].
      destruct (Z.eqb_spec c 0x2D); [lia|]. reflexivity. }
    assert (En : negative (c :: ds) = false).
    { unfold negative. apply Z.eqb_neq. lia. }
    rewrite Eu, En.
    rewrite (proj1 (digitPrefix_all (c :: ds)) Hdig), Hdig, Hv. cbn [negb andb].
    unfold MinInt, MaxInt, maxUint64 in *.
    destruct (Z.gtb_spec n (2 ^ 64 - 1)); [lia|].
    rewrite Z.geb_leb. destruct (Z.leb_spec (2 ^ 63) n); [lia|]. reflexivity.
Qed.

(** What [Atoi] returns, case by case. *)
Ltac settle :=
  repeat match goal with
         | |- _ /\ _ => split
         | |- _ <-> _ => split
         | |- _ -> _ => intro
         end;
  repeat match goal with
         | H : _ /\ _ |- _ => destruct H
         end;
  try lia; try discriminate; try congruence; try tauto; auto.

Lemma Atoi_cases (s : gostring) :
  let body := unsigned s in
  let v := decimalValue (digitPrefix body) in
  let signed := if negative s then - v else v in
  MinInt <= fst (Atoi s) <= MaxInt
  /\ (body = [] -> fst (Atoi s) = 0)
  /\ (maxUint64 < v -> fst (Atoi s) = if negative s then MinInt else MaxInt)
  /\ (v <= maxUint64 -> digitPrefix body <> body -> fst (Atoi s) = 0)
  /\ (body <> [] -> digitPrefix body = body ->
      fst (Atoi s) = Z.max MinInt (Z.min MaxInt signed))
  /\ (snd (Atoi s) = true <->
      body <> [] /\ digitPrefix body = body /\ MinInt <= signed <= MaxInt)
  /\ (snd (Atoi s) = false ->
      fst (Atoi s) = 0 \/ fst (Atoi s) = MaxInt \/ fst (Atoi s) = MinInt).
Proof.
  cbv zeta. rewrite Atoi_spec. cbv zeta.
  pose proof (decimalValue_nonneg (unsigned s)) as Hv.
  pose proof (digitPrefix_all (unsigned s)) as Hall.
  set (v := decimalValue (digitPrefix (unsigned s))) in *.
  destruct (unsigned s) as [|b body] eqn:Eb.
  { cbn [fst snd]. unfold MinInt, MaxInt. settle. }
  set (t := b :: body) in *.
  assert (Ht : t <> []) by (subst t; discriminate).
  unfold MinInt, MaxInt, maxUint64 in *.
  destruct (Z.gtb_spec v (2 ^ 64 - 1)) as [Hov|Hin].
  { destruct (negative s); cbn [fst snd]; settle. }
  destruct (forallb isDigit t) eqn:Ed.
  - assert (Ep : digitPrefix t = t) by now apply Hall.
    rewrite Z.geb_leb.
    destruct (negative s); cbn [negb andb].
    + destruct (Z.gtb_spec v (2 ^ 63)); cbn [fst snd]; settle.
    + destruct (Z.leb_spec (2 ^ 63) v); cbn [fst snd]; settle.
  - assert (Ep : digitPrefix t <> t).
    { intros E. apply Hall in E. congruence. }
    cbn [fst snd]. settle.
Qed.

(** The fast path of [Atoi], taken when [0 < len(s) < 19], returns what
    [ParseInt] returns; [len(s)] counts bytes, no fewer than the runes. *)
Lemma fastDigits_spec (s : gostring) :
  forall n,
    fastDigits s n
    = if forallb isDigit s then Some (decimalFrom n s) else None.
Proof.
  induction s as [|c s IH]; intros n; [reflexivity|].
  cbn [fastDigits forallb]. destruct (isDigit c); [|reflexivity].
  rewrite IH, decimalFrom_cons. reflexivity.
Qed.

Lemma atoiFast_Atoi (s : gostring) : len s < 19 -> atoiFast s = Atoi s.
Proof.
  assert (Hbody : forall (neg : bool) (t : gostring),
    len t < 19 ->
    match fastDigits t 0 with
    | None => (0, false)
    | Some n => (if neg then - n else n, true)
    end
    = let v := decimalValue (digitPrefix t) in
      if v >? maxUint64 then (if neg then MinInt else MaxInt, false)
      else if forallb isDigit t then
        if negb neg && (v >=? 2 ^ 63) then (MaxInt, false)
        else if neg && (v >? 2 ^ 63) then (MinInt, false)
        else (if neg then - v else v, true)
      else (0, false)).
  { intros neg t Hlen. cbv zeta.
    pose proof (decimalFrom_lt (digitPrefix t) 0 ltac:(lia) (digitPrefix_digits t))
      as Hlt.
    pose proof (digitPrefix_len t) as Hp.
    assert (Hpow : 10 ^ len (digitPrefix t) <= 10 ^ 18).
    { apply Z.pow_le_mono_r; unfold len in *; lia. }
    fold (decimalValue (digitPrefix t)) in Hlt.
    unfold maxUint64.
    destruct (Z.gtb_spec (decimalValue (digitPrefix t)) (2 ^ 64 - 1)); [lia|].
    rewrite fastDigits_spec. destruct (forallb isDigit t) eqn:Ed; [|reflexivity].
    rewrite (proj1 (digitPrefix_all t) Ed) in *.
    rewrite Z.geb_leb.
    destruct (Z.leb_spec (2 ^ 63) (decimalValue t)); [lia|].
    destruct (Z.gtb_spec (decimalValue t) (2 ^ 63)); [lia|].
    rewrite !andb_false_r. reflexivity. }
  intros Hlen. rewrite Atoi_spec. cbv zeta.
  destruct s as [|c s]; [reflexivity|].
  unfold atoiFast, unsigned, negative. rewrite (orb_comm (c =? 0x2D)).
  destruct ((c =? 0x2B) || (c =? 0x2D)).
  - destruct s as [|b body]; [reflexivity|]. apply Hbody.
    unfold len in *. simpl length in *. lia.
  - apply Hbody. exact Hlen.
Qed.

(** X15. The year of a parsed row is what [strconv.Atoi] returns for
    column 6, its error dropped, so every row with seven columns has a
    year, an [int].  It is the number when the column is the decimal text
    of an [int]; 0 when nothing follows the sign; the bound of the sign,
    [MaxInt] or [MinInt], when the leading digits pass [maxUint64],
    whatever follows them; 0 when something that is no digit follows digits
    that do not pass it; and for digits alone the signed number, or the
    bound nearest to it when it is no [int]. *)
Theorem parseRow_year (cols : list gostring) (alb : Album) :
  parseRow cols = inr alb ->
  let s := column cols 6 in
  let body := unsigned s in
  let v := decimalValue (digitPrefix body) in
  let signed := if negative s then - v else v in
  (forall n, MinInt <= n <= MaxInt -> s = Itoa n -> ProductionYear alb = n)
  /\ MinInt <= ProductionYear alb <= MaxInt
  /\ (body = [] -> ProductionYear alb = 0)
  /\ (maxUint64 < v ->
      ProductionYear alb = if negative s then MinInt else MaxInt)
  /\ (v <= maxUint64 -> digitPrefix body <> body -> ProductionYear alb = 0)
  /\ (body <> [] -> digitPrefix body = body ->
      ProductionYear alb = Z.max MinInt (Z.min MaxInt signed))
  /\ (snd (Atoi s) = true <->
      body <> [] /\ digitPrefix body = body /\ MinInt <= signed <= MaxInt)
  /\ (snd (Atoi s) = false ->
      ProductionYear alb = 0 \/ ProductionYear alb = MaxInt
      \/ ProductionYear alb = MinInt).
Proof.
  intros H.
  assert (Hlen : 7 <= len cols).
  { destruct (Z.lt_ge_cases (len cols) 7) as [Hlt|]; [|assumption].
    rewrite (parseRow_short cols Hlt) in H. discriminate. }
  rewrite (parseRow_rowAlbum cols Hlen) in H. injection H as <-.
  unfold rowAlbum. cbn [ProductionYear]. cbv zeta.
  split; [intros n Hn E; now rewrite E, Atoi_Itoa|].
  exact (Atoi_cases (column cols 6)).
Qed.

End Year.

Lemma parseRow_year_witness :
  let cols := [str "1"; []; []; []; []; str "Abbey Road";
               str "99999999999999999999x"] in
  ProductionYear (rowAlbum fullRow) = 1969
  /\ ProductionYear (rowAlbum cols) = MaxInt
  /\ ProductionYear
       (rowAlbum [str "1"; []; []; []; []; str "Abbey Road"; str "1969-09-26"])
     = 0.
Proof.
  cbv zeta. split; [|split].
  - destruct (parseRow_year fullRow (rowAlbum fullRow) eq_refl) as (H & _).
    apply (H 1969); [unfold MinInt, MaxInt; lia|reflexivity].
  - destruct (parseRow_year
                [str "1"; []; []; []; []; str "Abbey Road";
                 str "99999999999999999999x"] _ eq_refl)
      as (_ & _ & _ & H & _).
    apply H. reflexivity.
  - destruct (parseRow_year
                [str "1"; []; []; []; []; str "Abbey Road"; str "1969-09-26"]
                _ eq_refl)
      as (_ & _ & _ & _ & H & _).
    apply H; [discriminate|discriminate].
Defined.

(** A year column whose digits pass [maxUint64] before a letter. *)
Example parseRows_year_out_of_range :
  parseRows [exportHeader;
             [str "1"; []; []; []; []; str "Abbey Road";
              str "99999999999999999999x"]]
  = Ok [{| RYMAlbumID := str "1"; ID := []; Name := str "Abbey Road";
           AlbumArtist := []; ProductionYear := 9223372036854775807;
           Overview := []; PrimaryImageTag := [] |}].
Proof. reflexivity. Qed.

Example Atoi_examples :
  Atoi (str "1969") = (1969, true)
  /\ Atoi (str "-12") = (-12, true)
  /\ Atoi (str "+7") = (7, true)
  /\ Atoi (str "1969-09-26") = (0, false)
  /\ Atoi [] = (0, false)
  /\ Atoi (str "-") = (0, false)
  /\ Atoi (str "99999999999999999999") = (MaxInt, false)
  /\ Atoi (str "99999999999999999999x") = (MaxInt, false)
  /\ Atoi (str "-99999999999999999999x") = (MinInt, false)
  /\ Atoi (str "18446744073709551615x") = (0, false)
  /\ Atoi (str "18446744073709551616x") = (MaxInt, false)
  /\ Atoi (str "9223372036854775808") = (MaxInt, false)
  /\ Atoi (str "9223372036854775808x") = (0, false)
  /\ Atoi (str "-9223372036854775808") = (MinInt, true)
  /\ Itoa 1969 = str "1969" /\ Itoa 0 = str "0" /\ Itoa (-12) = str "-12".
Proof. repeat split. Qed.

(** ** [stripBOM] *)

(** X16. [stripBOM] removes the three bytes of one leading byte order
    mark, which is the rune U+FEFF at the head of the text, and only that:
    bytes that do not begin with EF BB BF are returned as they are, and a
    second mark behind the first stays. *)
Theorem stripBOM_spec (b : list byte) :
  (b = 0xEF :: 0xBB :: 0xBF :: stripBOM b
   /\ utf8.runes b = 0xFEFF :: utf8.runes (stripBOM b))
  \/ (stripBOM b = b /\ forall b', b <> 0xEF :: 0xBB :: 0xBF :: b').
Proof.
  destruct b as [|b0 [|b1 [|b2 b']]];
    try (right; split; [reflexivity|intros; discriminate]).
  unfold stripBOM.
  destruct (Z.eqb_spec b0 0xEF) as [->|H0];
    [|right; split; [reflexivity|intros b'' E; injection E; congruence]].
  destruct (Z.eqb_spec b1 0xBB) as [->|H1];
    [|right; split; [reflexivity|intros b'' E; injection E; congruence]].
  destruct (Z.eqb_spec b2 0xBF) as [->|H2];
    [|right; split; [reflexivity|intros b'' E; injection E; congruence]].
  left. split; reflexivity.
Qed.

Example stripBOM_once :
  stripBOM [0xEF; 0xBB; 0xBF; 0xEF; 0xBB; 0xBF; 0x61] = [0xEF; 0xBB; 0xBF; 0x61]
  /\ stripBOM [0xEF; 0xBB] = [0xEF; 0xBB]
  /\ stripBOM [] = [].
Proof. repeat split. Qed.

(** ** The comparator of [main] *)

Section Comparator.
Context {U : UnicodeTables}.

Lemma eqString_eq (s t : gostring) : eqString s t = true <-> s = t.
Proof.
  revert t. induction s as [|x s IH]; intros [|y t]; simpl;
    try (split; [discriminate|congruence]); [tauto|].
  rewrite andb_true_iff, Z.eqb_eq, IH. split.
  - intros [-> ->]. reflexivity.
  - intros H. injection H as -> ->. auto.
Qed.

Lemma eqString_refl (s : gostring) : eqString s s = true.
Proof. now apply eqString_eq. Qed.

Lemma ltString_irrefl (s : gostring) : ltString s s = false.
Proof.
  induction s as [|x s IH]; [reflexivity|]. simpl.
  now rewrite Z.ltb_irrefl, Z.eqb_refl, IH.
Qed.

Lemma ltString_cons (x y : rune) (s t : gostring) :
  ltString (x :: s) (y :: t) = true <-> x < y \/ (x = y /\ ltString s t = true).
Proof.
  simpl. rewrite orb_true_iff, andb_true_iff, Z.ltb_lt, Z.eqb_eq. tauto.
Qed.

Lemma ltString_trans (s t u : gostring) :
  ltString s t = true -> ltString t u = true -> ltString s u = true.
Proof.
  revert t u. induction s as [|x s IH]; intros [|y t] [|z u]; try discriminate;
    try reflexivity.
  rewrite !ltString_cons. intros [H1|[-> H1]] [H2|[-> H2]].
  - left. lia.
  - now left.
  - now left.
  - right. split; [reflexivity|]. now apply (IH t).
Qed.

Lemma ltString_total (s t : gostring) :
  ltString s t = true \/ s = t \/ ltString t s = true.
Proof.
  revert t. induction s as [|x s IH]; intros [|y t]; simpl; auto.
  destruct (Z.lt_total x y) as [H|[->|H]].
  - left. apply Z.ltb_lt in H. now rewrite H.
  - rewrite Z.ltb_irrefl, Z.eqb_refl. simpl.
    destruct (IH t) as [H|[->|H]]; auto.
  - right. right. apply Z.ltb_lt in H. now rewrite H.
Qed.

(** [less] is the lexicographic order of the two lower-cased keys. *)
Lemma less_iff (a b : Album) :
  less a b = true <->
  ltString (ToLower (AlbumArtist a)) (ToLower (AlbumArtist b)) = true
  \/ (ToLower (AlbumArtist a) = ToLower (AlbumArtist b)
      /\ ltString (ToLower (Name a)) (ToLower (Name b)) = true).
Proof.
  unfold less. cbv zeta.
  destruct (eqString _ _) eqn:E.
  - apply eqString_eq in E. rewrite E, ltString_irrefl. split; [auto|].
    intros [H|[_ H]]; [discriminate|exact H].
  - split; [auto|]. intros [H|[H _]]; [exact H|].
    apply eqString_eq in H. congruence.
Qed.

Lemma less_false_iff (a b : Album) :
  less a b = false /\ less b a = false <->
  ToLower (AlbumArtist a) = ToLower (AlbumArtist b)
  /\ ToLower (Name a) = ToLower (Name b).
Proof.
  split.
  - intros [H1 H2].
    destruct (ltString_total (ToLower (AlbumArtist a)) (ToLower (AlbumArtist b)))
      as [H|[E|H]].
    + assert (less a b = true) by (apply less_iff; auto). congruence.
    + split; [exact E|].
      destruct (ltString_total (ToLower (Name a)) (ToLower (Name b)))
        as [H|[E'|H]]; [|exact E'|].
      * assert (less a b = true) by (apply less_iff; auto). congruence.
      * assert (less b a = true) by (apply less_iff; auto). congruence.
    + assert (less b a = true) by (apply less_iff; auto). congruence.
  - intros [E1 E2]. unfold less. cbv zeta.
    rewrite E1, E2, !eqString_refl, ltString_irrefl. auto.
Qed.

(** X17. The function given to [sort.Slice] is a strict weak order, as
    [sort.Slice] requires: no album is before itself, before is transitive,
    and being tied is transitive.  Two albums are tied exactly when their
    contributors and their titles agree up to case, so the place of such
    albums among themselves is left to [sort.Slice]. *)
Theorem less_strict_weak_order :
  (forall a, less a a = false)
  /\ (forall a b c, less a b = true -> less b c = true -> less a c = true)
  /\ (forall a b c,
        less a b = false /\ less b a = false ->
        less b c = false /\ less c b = false ->
        less a c = false /\ less c a = false)
  /\ (forall a b,
        less a b = false /\ less b a = false <->
        ToLower (AlbumArtist a) = ToLower (AlbumArtist b)
        /\ ToLower (Name a) = ToLower (Name b)).
Proof.
  split; [|split; [|split]].
  - intros a. unfold less. cbv zeta. now rewrite eqString_refl, ltString_irrefl.
  - intros a b c Hab Hbc. apply less_iff in Hab, Hbc. apply less_iff.
    destruct Hab as [H1|[E1 H1]], Hbc as [H2|[E2 H2]].
    + left. now apply (ltString_trans _ _ _ H1).
    + left. now rewrite <- E2.
    + left. now rewrite E1.
    + right. split; [congruence|]. now apply (ltString_trans _ _ _ H1).
  - intros a b c Hab Hbc. apply less_false_iff in Hab, Hbc.
    apply less_false_iff. destruct Hab, Hbc. split; congruence.
  - intros a b. apply less_false_iff.
Qed.

End Comparator.

Example less_examples :
  @less latin1.tables abbeyRoad letItBleed = true
  /\ @less latin1.tables letItBleed abbeyRoad = false
  /\ @less latin1.tables (album (str "Help!") (str "the beatles")) abbeyRoad = false
  /\ @less latin1.tables abbeyRoad (album (str "Help!") (str "the beatles")) = true
  /\ @less latin1.tables abbeyRoad (album (str "ABBEY ROAD") (str "THE BEATLES")) = false.
Proof. repeat split. Qed.

(** ** The distance of [DefaultOptions] *)

Section Distance.
Import levenshtein.

Lemma editDistance_common (a : list rune) :
  forall b, exists k,
    0 <= k <= Z.min (len a) (len b)
    /\ editDistance DefaultOptions a b = len a + len b - 2 * k.
Proof.
  induction a as [|x a IHa]; intros b.
  - exists 0. rewrite LevenshteinFacts.editDistance_nil_l.
    unfold len. simpl. lia.
  - induction b as [|y b IHb].
    + exists 0. rewrite LevenshteinFacts.editDistance_nil_r.
      unfold len. simpl. lia.
    + rewrite LevenshteinFacts.editDistance_cons.
      destruct (IHa (y :: b)) as (k1 & Hk1 & ->).
      destruct (IHa b) as (k2 & Hk2 & ->).
      destruct IHb as (k3 & Hk3 & ->).
      unfold len in *. cbn [length] in *. simpl InsCost. simpl DelCost.
      simpl SubCost. simpl Matches.
      rewrite !Nat2Z.inj_succ in *.
      match goal with
      | |- exists k, _ /\ Z.min ?p (Z.min ?q ?r) = _ =>
          assert (Hmin : Z.min p (Z.min q r) = p \/ Z.min p (Z.min q r) = q
                         \/ Z.min p (Z.min q r) = r) by lia;
          destruct Hmin as [E|[E|E]]; rewrite E
      end.
      * exists k1. lia.
      * destruct (x =? y); [exists (k2 + 1)|exists k2]; lia.
      * exists k3. lia.
Qed.

Lemma editDistance_zero (a : list rune) :
  forall b, editDistance DefaultOptions a b = 0 -> a = b.
Proof.
  assert (Hnn : forall a b, 0 <= editDistance DefaultOptions a b)
    by (apply LevenshteinFacts.editDistance_nonneg; simpl; lia).
  induction a as [|x a IHa]; intros b.
  - rewrite LevenshteinFacts.editDistance_nil_l. destruct b; [reflexivity|].
    unfold len. simpl. lia.
  - destruct b as [|y b].
    + rewrite LevenshteinFacts.editDistance_nil_r. unfold len. simpl. lia.
    + rewrite LevenshteinFacts.editDistance_cons. simpl InsCost. simpl DelCost.
      simpl SubCost. simpl Matches.
      pose proof (Hnn a (y :: b)) as N1. pose proof (Hnn a b) as N2.
      pose proof (Hnn (x :: a) b) as N3.
      destruct (Z.eqb_spec x y) as [->|Hxy]; intros Hz.
      * f_equal. apply IHa. lia.
      * lia.
Qed.

(** X18. The distance [similarity] works with counts insertions and
    deletions only: it is [len a + len b - 2k] for some [k] between 0 and
    the shorter length (the runes kept), so it lies between the difference
    of the lengths and their sum and has the parity of the sum; and it is 0
    exactly when the two strings are the same. *)
Theorem DefaultOptions_distance (a b : gostring) :
  (exists k,
      0 <= k <= Z.min (len a) (len b)
      /\ DistanceForStrings a b DefaultOptions = len a + len b - 2 * k)
  /\ (DistanceForStrings a b DefaultOptions = 0 <-> a = b).
Proof.
  rewrite LevenshteinFacts.DistanceForStrings_weightedDistance.
  unfold weightedDistance. split.
  - destruct (editDistance_common (rev a) (rev b)) as (k & Hk & E).
    exists k. unfold len in *. rewrite !length_rev in *. auto.
  - split.
    + intros H. apply editDistance_zero in H.
      now rewrite <- (rev_involutive a), H, rev_involutive.
    + intros ->. apply LevenshteinFacts.editDistance_diag; simpl; try lia;
        intros x; apply Z.eqb_refl.
Qed.

End Distance.

(** ** When [normalize] returns the empty string *)

Section NormalizeEmpty.
Context {U : UnicodeTables}.

Lemma fieldsFrom_some (s : gostring) (w : gostring) :
  fieldsFrom s (Some w) <> [].
Proof.
  revert w. induction s as [|r s IH]; intros w; simpl; [discriminate|].
  destruct (IsSpace r); [discriminate|apply IH].
Qed.

Lemma Fields_nil_iff (s : gostring) :
  Fields s = [] <-> forall r, In r s -> IsSpace r = true.
Proof.
  unfold Fields. induction s as [|r s IH]; simpl.
  - split; [intros _ r []|reflexivity].
  - destruct (IsSpace r) eqn:E.
    + rewrite IH. split.
      * intros H x [<-|Hx]; auto.
      * intros H x Hx. apply H. now right.
    + split.
      * intros H. now apply fieldsFrom_some in H.
      * intros H. specialize (H r (or_introl eq_refl)). congruence.
Qed.

(** X19. [normalize] returns the empty string exactly when the decomposed
    lower-cased input holds no letter and no number other than marks: an
    empty input field, or one of punctuation, symbols and white space only.
    Such a field is the one that [similarity] scores 0 against anything. *)
Theorem normalize_empty_iff (s : gostring) :
  normalize s = [] <->
  forall r, In r (NFD (ToLower s)) ->
    Mn r = true \/ IsLetter r || IsNumber r = false \/ IsSpace r = true.
Proof.
  rewrite normalize_eq.
  pose proof (fieldsFrom_fields (filter kept (NFD (ToLower s))) None
                ltac:(discriminate)) as Hf.
  fold (Fields (filter kept (NFD (ToLower s)))) in Hf.
  assert (HJ : Join (Fields (filter kept (NFD (ToLower s)))) (str " ") = []
               <-> Fields (filter kept (NFD (ToLower s))) = []).
  { split; [|now intros ->].
    destruct (Fields (filter kept (NFD (ToLower s)))) as [|w ws]; [reflexivity|].
    intros H. exfalso.
    apply (Join_fields_nonempty w ws (str " ")); [now inversion Hf|exact H]. }
  rewrite HJ, Fields_nil_iff. split.
  - intros H r Hr. destruct (Mn r) eqn:Em; [now left|right].
    destruct (IsLetter r || IsNumber r) eqn:El; [right|now left].
    apply H. apply filter_In. split; [exact Hr|].
    unfold kept. now rewrite Em, El.
  - intros H r Hr. apply filter_In in Hr as [Hr Hk]. unfold kept in Hk.
    destruct (H r Hr) as [E|[E|E]]; [|rewrite E in Hk|exact E].
    + rewrite E in Hk. discriminate.
    + destruct (Mn r); [discriminate|exact Hk].
Qed.

End NormalizeEmpty.
